(** * Feature-extractor post-processing of fish_diffusion

    Shallow embedding of the tensor post-processing found in
    [fish_diffusion/modules/feature_extractors/chinese_hubert.py]:

    - the top-k gate of [ChineseHubertSoft._forward] (lines 59-64),
    - the temporal resampling of [ChineseHubert.forward] (lines 92-101),
    - the channel concatenation of [EnsembleHubert.forward] (lines 140-152).

    The pretrained encoders, the audio preprocessing and the checkpoint
    handling are outside this development: the functions below start
    from the feature tensor the encoder returns.

    A rank-3 tensor is a nested list, outermost axis first.  The torch
    primitives the source calls ([topk], [scatter], [sum], broadcast
    division, [transpose], [cat], [interpolate]) are written over an
    interface of scalar operations, and the interface is instantiated
    twice: with IEEE binary32 (the dtype of the encoder output) and with
    exact rationals extended by the IEEE special values, the arithmetic
    in which the spec's equalities are meant. *)

From Stdlib Require Import ZArith QArith Qcanon Qround Lia.
From Stdlib Require Import Floats.SpecFloat.
From stdpp Require Import base decidable option list numbers sorting.

Open Scope Z_scope.

(** ** Scalars *)

(** The operations of a tensor element type that the source relies on. *)
Class Scalar (A : Type) := {
  s_zero : A;
  s_one : A;
  s_half : A;
  s_of_Z : Z -> A;
  s_add : A -> A -> A;
  s_sub : A -> A -> A;
  s_mul : A -> A -> A;
  s_div : A -> A -> A;
  s_ltb : A -> A -> bool;      (* IEEE [<]: false when either side is NaN *)
  s_eqb : A -> A -> bool;      (* IEEE [==] *)
  s_isnan : A -> bool;
  s_floor : A -> Z;            (* [floorf] followed by the cast to int64 *)
}.

(** [x != 0] as torch evaluates it. *)
Definition s_nonzero `{Scalar A} (x : A) : bool := negb (s_eqb x s_zero).

(** [std::max] and [std::min] on scalars. *)
Definition s_max `{Scalar A} (a b : A) : A := if s_ltb a b then b else a.
Definition s_min `{Scalar A} (a b : A) : A := if s_ltb b a then b else a.

(** ** Tensors *)

Abbreviation tensor3 A := (list (list (list A))).

(** [x] is a well-formed tensor of shape [[n0, n1, n2]]. *)
Definition has_shape {A} (n0 n1 n2 : nat) (x : tensor3 A) : Prop :=
  length x = n0 /\
  Forall (fun m => length m = n1 /\ Forall (fun r => length r = n2) m) x.

(** The slice along the last axis at position [(i, j)] of the two
    leading axes. *)
Definition slice {X} (x : list (list X)) (i j : nat) : option X :=
  x !! i ≫= fun m => m !! j.

(** [x.shape[2]], read off the first slice; a tensor that is empty along
    a leading axis carries no slices, and 0 is returned. *)
Definition shape2 {A} (x : tensor3 A) : nat :=
  match x with
  | (r :: _) :: _ => length r
  | _ => 0%nat
  end.

(** A function applied below two, or three, list levels. *)
Definition fmap2 {X Y} (f : X -> Y) (x : list (list X)) : list (list Y) :=
  (fun m : list X => f <$> m) <$> x.

Definition fmap3 {X Y} (f : X -> Y) (x : tensor3 X) : tensor3 Y :=
  fmap2 (fun r : list X => f <$> r) x.

(** Number of entries of a slice that are [!= 0]. *)
Definition count_nonzero `{Scalar A} (l : list A) : nat :=
  length (filter (fun v => s_nonzero v = true) l).

(** ** torch primitives *)

Section Torch.
Context {A : Type} `{Scalar A}.

(** *** [torch.topk] *)

(** The order [topk] selects by: [x] comes strictly before [y] when it
    is larger, NaN counting as larger than every number. *)
Definition topk_gt (x y : A) : bool :=
  (s_isnan x && negb (s_isnan y)) || s_ltb y x.

(** [torch.topk] is a library primitive whose code is not part of the
    repository, and its documentation leaves the order among equal
    values open.  The model fixes one order that the documentation
    admits, the one section 4.1 of the spec names: among equal values
    the lower channel index comes first.  Insertion into a list that is
    sorted in descending order: the new entry goes in front of the
    entries it ties with. *)
Fixpoint insert_desc (p : nat * A) (l : list (nat * A)) : list (nat * A) :=
  match l with
  | [] => [p]
  | q :: l' => if topk_gt q.2 p.2 then q :: insert_desc p l' else p :: q :: l'
  end.

(** The entries of a slice with their channel index, largest first. *)
Definition sort_desc (xs : list A) : list (nat * A) :=
  foldr insert_desc [] (imap pair xs).

(** [torch.topk(xs, k)] on one slice: the values and the indices of the
    [k] largest entries, largest first; an error when [k] is not within
    [0 .. len(xs)]. *)
Definition topk_row (k : Z) (xs : list A) : option (list A * list nat) :=
  if decide (0 <= k <= Z.of_nat (length xs)) then
    let top := take (Z.to_nat k) (sort_desc xs) in
    Some (top.*2, top.*1)
  else None.

(** [torch.topk(input, k, dim=2)]. *)
Definition topk (input : tensor3 A) (k : Z)
  : option (tensor3 A * tensor3 nat) :=
  r ← mapM (mapM (topk_row k)) input;
  Some (fmap2 fst r, fmap2 snd r).

(** *** [torch.zeros_like] *)
Definition zeros_like (x : tensor3 A) : tensor3 A :=
  fmap3 (fun _ => s_zero) x.

(** *** [Tensor.scatter] along the last axis *)

(** [self[index[c]] = src[c]] for every position [c] of [index], in
    order; an index outside [self], or an [index] longer than [src], is
    an error. *)
Fixpoint scatter_row (self : list A) (index : list nat) (src : list A)
  : option (list A) :=
  match index, src with
  | [], _ => Some self
  | i :: index', v :: src' =>
      if decide (i < length self)%nat
      then scatter_row (<[i := v]> self) index' src'
      else None
  | _ :: _, [] => None
  end.

(** A leading axis of [scatter]: the positions [index] covers are
    updated, the others are kept; [index] may not be longer than [self]
    or [src]. *)
Fixpoint scatter_along {X I S} (f : X -> I -> S -> option X)
    (self : list X) (index : list I) (src : list S) : option (list X) :=
  match index, self, src with
  | [], _, _ => Some self
  | i :: index', x :: self', s :: src' =>
      x' ← f x i s;
      r ← scatter_along f self' index' src';
      Some (x' :: r)
  | _ :: _, _, _ => None
  end.

(** [self.scatter(2, index, src)]. *)
Definition scatter (self : tensor3 A) (index : tensor3 nat) (src : tensor3 A)
  : option (tensor3 A) :=
  scatter_along (scatter_along scatter_row) self index src.

(** *** [Tensor.sum(2, keepdim=True)] *)

Definition sum_row (l : list A) : A := foldl s_add s_zero l.

Definition sum_keepdim (x : tensor3 A) : tensor3 A :=
  fmap2 (fun r => [sum_row r]) x.

(** *** Broadcasting division *)

(** One axis of a broadcasting binary operation: equal sizes are
    paired, a size-1 axis is repeated, anything else is an error. *)
Definition bcast {X Y R} (f : X -> Y -> option R) (l1 : list X) (l2 : list Y)
  : option (list R) :=
  match l1, l2 with
  | _, [y] => mapM (fun x => f x y) l1
  | [x], _ => mapM (f x) l2
  | _, _ =>
      if decide (length l1 = length l2)
      then mapM (fun p => f p.1 p.2) (zip l1 l2)
      else None
  end.

(** [x / y] on rank-3 tensors. *)
Definition div (x y : tensor3 A) : option (tensor3 A) :=
  bcast (bcast (bcast (fun a b => Some (s_div a b)))) x y.

(** *** [Tensor.transpose(1, 2)] *)

Fixpoint transpose_rows {X} (n : nat) (m : list (list X)) : list (list X) :=
  match n with
  | O => []
  | S n' =>
      omap head m :: transpose_rows n' ((fun r : list X => drop 1 r) <$> m)
  end.

Definition transpose12 {X} (x : tensor3 X) : tensor3 X :=
  (fun m : list (list X) =>
     transpose_rows (match m with r :: _ => length r | [] => 0%nat end) m)
  <$> x.

(** *** [torch.cat(tensors, dim=1)] *)

(** The sizes along the last axis agree: all rows of the two tensors
    have one length (a tensor without rows has no size to compare). *)
Definition same_last_size {X} (x y : tensor3 X) : Prop :=
  match concat x ++ concat y with
  | [] => True
  | r :: rows => Forall (fun r' : list X => length r' = length r) rows
  end.

#[global] Instance same_last_size_dec {X} (x y : tensor3 X) :
  Decision (same_last_size x y).
Proof. unfold same_last_size. destruct (concat x ++ concat y); apply _. Defined.

(** Two tensors are joined along axis 1 when their other axes agree. *)
Definition cat2 {X} (x y : tensor3 X) : option (tensor3 X) :=
  if decide (length x = length y /\ same_last_size x y)
  then Some (zip_with app x y)
  else None.

(** An empty list of tensors is rejected. *)
Definition cat_dim1 {X} (tensors : list (tensor3 X)) : option (tensor3 X) :=
  match tensors with
  | [] => None
  | t0 :: rest => foldl (fun acc t => a ← acc; cat2 a t) (Some t0) rest
  end.

(** *** [torch.nn.functional.interpolate(input, size, mode="linear")] *)

(** [align_corners] is left at its default, so output sample [dst] is
    centred at [scale * (dst + 0.5) - 0.5], clamped at 0.  The
    definitions follow the CPU kernel of [upsample_linear1d], which
    blends two samples also when the lengths agree (weights 1 and 0). *)
Definition area_pixel_compute_scale (input_size output_size : Z) : A :=
  s_div (s_of_Z input_size) (s_of_Z output_size).

Definition area_pixel_compute_source_index (scale : A) (dst_index : Z) : A :=
  let src_idx :=
    s_sub (s_mul scale (s_add (s_of_Z dst_index) s_half)) s_half in
  if s_ltb src_idx s_zero then s_zero else src_idx.

(** Indices and weights of the two input samples that output sample
    [output_index] blends: [(i0, i1, lambda0, lambda1)]. *)
Definition compute_source_index_and_lambda
    (ratio : A) (output_index input_size output_size : Z)
  : Z * Z * A * A :=
  if decide (output_size = input_size) then
    (output_index, output_index, s_one, s_zero)
  else
    let real_input_index :=
      area_pixel_compute_source_index ratio output_index in
    let input_index0 := Z.min (s_floor real_input_index) (input_size - 1) in
    let lambda1 :=
      s_min (s_max (s_sub real_input_index (s_of_Z input_index0)) s_zero)
            s_one in
    let offset := if decide (input_index0 < input_size - 1) then 1 else 0 in
    (input_index0, input_index0 + offset, s_sub s_one lambda1, lambda1).

Definition at_index (r : list A) (i : Z) : A :=
  default s_zero (r !! Z.to_nat i).

(** One row of the linear kernel. *)
Definition upsample_linear1d_row (output_size : Z) (r : list A) : list A :=
  let input_size := Z.of_nat (length r) in
  let ratio := area_pixel_compute_scale input_size output_size in
  (fun ow : nat =>
     let '(i0, i1, lambda0, lambda1) :=
       compute_source_index_and_lambda ratio (Z.of_nat ow)
         input_size output_size in
     s_add (s_mul lambda0 (at_index r i0)) (s_mul lambda1 (at_index r i1)))
  <$> seq 0 (Z.to_nat output_size).

(** The input and the requested length must both be positive. *)
Definition interpolate (input : tensor3 A) (size : Z) : option (tensor3 A) :=
  if decide (0 < Z.of_nat (shape2 input) /\ 0 < size)
  then Some (fmap2 (upsample_linear1d_row size) input)
  else None.

(** [c * x] for a scalar [c]. *)
Definition scale (c : A) (x : tensor3 A) : tensor3 A :=
  fmap3 (s_mul c) x.

(** ** The source functions *)

(** Lines 60-61 of [ChineseHubertSoft._forward]: the [k] largest
    entries of every slice are written into a tensor of zeros. *)
Definition gate_select (features : tensor3 A) (gate_size : Z)
  : option (tensor3 A) :=
  '(topk_values, indices) ← topk features gate_size;
  scatter (zeros_like features) indices topk_values.

(** Lines 60-62: selection followed by the normalisation. *)
Definition topk_gate (features : tensor3 A) (gate_size : Z)
  : option (tensor3 A) :=
  features ← gate_select features gate_size;
  div features (sum_keepdim features).

(** The resampling stage, lines 92-101 of [ChineseHubert.forward] and
    again lines 143-152 of [EnsembleHubert.forward]: [downsample] is
    [None] or an integer; [//] by zero raises. *)
Definition resample (features : tensor3 A) (downsample : option Z)
  : option (tensor3 A) :=
  match downsample with
  | None => Some features
  | Some d =>
      if decide (d = 0) then None
      else interpolate features (Z.of_nat (shape2 features) `div` d)
  end.

(** The gate on one slice; [topk_gate] is shown below to act as this
    function at every position. *)
Definition select_row (k : Z) (xs : list A) : option (list A) :=
  '(v, i) ← topk_row k xs;
  scatter_row ((fun _ => s_zero) <$> xs) i v.

Definition gate_row (k : Z) (xs : list A) : option (list A) :=
  ys ← select_row k xs;
  Some ((fun y => s_div y (sum_row ys)) <$> ys).
End Torch.

(** The three [forward] methods, from the feature tensors the encoders
    return on; the attributes of [self] they read are parameters. *)

Module ChineseHubertSoft.
(** Lines 59-64: the gate and the final transposition; [features] is the
    projected encoder output of shape [[B, T, C]]. *)
Definition _forward {A : Type} `{Scalar A} (features : tensor3 A)
    (gate_size : Z) : option (tensor3 A) :=
  transpose12 <$> topk_gate features gate_size.
End ChineseHubertSoft.

Module ChineseHubert.
(** Lines 92-101; [features] is the transposed encoder output of shape
    [[B, C, T]]. *)
Definition forward {A : Type} `{Scalar A} (features : tensor3 A)
    (downsample : option Z) : option (tensor3 A) :=
  resample features downsample.
End ChineseHubert.

Module EnsembleHubert.
(** Lines 140-152; [features] is the list of transposed encoder outputs,
    in the order of the configured models. *)
Definition forward {A : Type} `{Scalar A} (features : list (tensor3 A))
    (downsample : option Z) : option (tensor3 A) :=
  features ← cat_dim1 features;
  resample features downsample.
End EnsembleHubert.

(** ** IEEE binary32 *)

(** The single-precision format of [SpecFloat]: 24 bits of precision,
    infinities at exponent 128, round to nearest even. *)
Module B32.
Definition prec : Z := 24.
Definition emax : Z := 128.

Definition of_Z (z : Z) : spec_float := binary_normalize prec emax z 0 false.

(** The float nearest to [n / d]. *)
Definition of_ratio (n d : Z) : spec_float :=
  SFdiv prec emax (of_Z n) (of_Z d).

Definition is_nan (x : spec_float) : bool :=
  match x with S754_nan => true | _ => false end.

Definition is_zero (x : spec_float) : bool :=
  match x with S754_zero _ => true | _ => false end.

(** NaN or an infinity. *)
Definition non_finite (x : spec_float) : bool :=
  match x with S754_nan | S754_infinity _ => true | _ => false end.

(** [floorf] and the conversion to an integer; the conversion of a
    non-finite value is not defined in C++ and is given as 0. *)
Definition floor (x : spec_float) : Z :=
  match x with
  | S754_finite s m e =>
      let v := cond_Zopp s (Zpos m) in
      if decide (0 <= e) then v * 2 ^ e else v `div` 2 ^ (- e)
  | _ => 0
  end.

(** The rational a finite float stands for. *)
Definition to_Q (x : spec_float) : Q :=
  match x with
  | S754_finite s m e =>
      let v := cond_Zopp s (Zpos m) in
      if decide (0 <= e) then inject_Z (v * 2 ^ e)
      else Qmake v (Z.to_pos (2 ^ (- e)))
  | _ => 0%Q
  end.

#[global] Instance scalar : Scalar spec_float := {|
  s_zero := S754_zero false;
  s_one := of_Z 1;
  s_half := of_ratio 1 2;
  s_of_Z := of_Z;
  s_add := SFadd prec emax;
  s_sub := SFsub prec emax;
  s_mul := SFmul prec emax;
  s_div := SFdiv prec emax;
  s_ltb := SFltb;
  s_eqb := SFeqb;
  s_isnan := is_nan;
  s_floor := floor;
|}.
(** A float's place in the selection order, as a triple compared
    lexicographically: its class, then exponent and mantissa (negated
    for negative numbers). *)
Definition key (x : spec_float) : Z * Z * Z :=
  match x with
  | S754_nan => (3, 0, 0)
  | S754_infinity false => (2, 0, 0)
  | S754_infinity true => (-2, 0, 0)
  | S754_zero _ => (0, 0, 0)
  | S754_finite false m e => (1, e, Zpos m)
  | S754_finite true m e => (-1, - e, Zneg m)
  end.

Definition lex_lt (a b : Z * Z * Z) : Prop :=
  a.1.1 < b.1.1 \/
  (a.1.1 = b.1.1 /\ (a.1.2 < b.1.2 \/ (a.1.2 = b.1.2 /\ a.2 < b.2))).

(** The power of two [2^d], and the multiplication by it when nothing is
    rounded: the exponent moves by [d]. *)
Definition pow2 (d : Z) : spec_float := S754_finite false 8388608 (d - 23).

Definition shift (d : Z) (x : spec_float) : spec_float :=
  match x with
  | S754_finite s m e => S754_finite s m (e + d)
  | _ => x
  end.

(** [x] and [2^d * x] are both representable without rounding. *)
Definition scalable (d : Z) (x : spec_float) : bool :=
  match x with
  | S754_finite s m e => bounded prec emax m e && bounded prec emax m (e + d)
  | _ => true
  end.
(** The sum [a + b] and its image under the shift by [d] stay clear of
    the subnormal range and of overflow. *)
Definition add_exact (d : Z) (a b : spec_float) : bool :=
  match a, b with
  | S754_finite _ _ ea, S754_finite _ _ eb =>
      (-126 <=? Z.min ea eb) && (-126 <=? Z.min ea eb + d) &&
      match SFadd prec emax a b with
      | S754_finite _ _ e => e + d <=? emax - prec
      | S754_infinity _ => false
      | _ => true
      end
  | _, _ => true
  end.

(** Every step of the left-to-right sum of [ys], started at [z], is
    exact in that sense. *)
Fixpoint sum_exact (d : Z) (z : spec_float) (ys : list spec_float) : bool :=
  match ys with
  | [] => true
  | y :: ys' => add_exact d z y && sum_exact d (SFadd prec emax z y) ys'
  end.
End B32.

(** ** Exact arithmetic *)

(** Rationals with the special values of IEEE arithmetic: the finite
    operations are exact, a division by zero gives an infinity or NaN as
    in IEEE 754. *)
Inductive ereal : Type :=
  | EFin (q : Qc)
  | EInf (neg : bool)
  | ENaN.

Module Exact.
Definition Qc_ltb (a b : Qc) : bool :=
  (Qnum a * Zpos (Qden b) <? Qnum b * Zpos (Qden a))%Z.

Definition Qc_eqb (a b : Qc) : bool :=
  (Qnum a * Zpos (Qden b) =? Qnum b * Zpos (Qden a))%Z.

Definition of_Z (z : Z) : ereal := EFin (Q2Qc (inject_Z z)).

Definition of_ratio (n : Z) (d : positive) : ereal := EFin (Q2Qc (Qmake n d)).

Definition neg (x : ereal) : ereal :=
  match x with
  | EFin q => EFin (- q)%Qc
  | EInf s => EInf (negb s)
  | ENaN => ENaN
  end.

Definition add (x y : ereal) : ereal :=
  match x, y with
  | ENaN, _ | _, ENaN => ENaN
  | EInf sx, EInf sy => if Bool.eqb sx sy then x else ENaN
  | EInf _, _ => x
  | _, EInf _ => y
  | EFin a, EFin b => EFin (a + b)%Qc
  end.

Definition sub (x y : ereal) : ereal := add x (neg y).

Definition mul (x y : ereal) : ereal :=
  match x, y with
  | ENaN, _ | _, ENaN => ENaN
  | EInf sx, EInf sy => EInf (xorb sx sy)
  | EInf sx, EFin b =>
      if Qc_eqb b 0 then ENaN else EInf (xorb sx (Qc_ltb b 0))
  | EFin a, EInf sy =>
      if Qc_eqb a 0 then ENaN else EInf (xorb (Qc_ltb a 0) sy)
  | EFin a, EFin b => EFin (a * b)%Qc
  end.

Definition div (x y : ereal) : ereal :=
  match x, y with
  | ENaN, _ | _, ENaN => ENaN
  | EInf _, EInf _ => ENaN
  | EInf sx, EFin b => EInf (xorb sx (Qc_ltb b 0))
  | EFin _, EInf _ => EFin 0
  | EFin a, EFin b =>
      if Qc_eqb b 0 then
        if Qc_eqb a 0 then ENaN else EInf (Qc_ltb a 0)
      else EFin (a / b)%Qc
  end.

Definition ltb (x y : ereal) : bool :=
  match x, y with
  | ENaN, _ | _, ENaN => false
  | EInf sx, EInf sy => sx && negb sy
  | EInf sx, EFin _ => sx
  | EFin _, EInf sy => negb sy
  | EFin a, EFin b => Qc_ltb a b
  end.

Definition eqb (x y : ereal) : bool :=
  match x, y with
  | ENaN, _ | _, ENaN => false
  | EInf sx, EInf sy => Bool.eqb sx sy
  | EFin a, EFin b => Qc_eqb a b
  | _, _ => false
  end.

Definition is_nan (x : ereal) : bool :=
  match x with ENaN => true | _ => false end.

Definition floor (x : ereal) : Z :=
  match x with EFin q => Qfloor q | _ => 0 end.

#[global] Instance scalar : Scalar ereal := {|
  s_zero := EFin 0;
  s_one := EFin 1;
  s_half := of_ratio 1 2;
  s_of_Z := of_Z;
  s_add := add;
  s_sub := sub;
  s_mul := mul;
  s_div := div;
  s_ltb := ltb;
  s_eqb := eqb;
  s_isnan := is_nan;
  s_floor := floor;
|}.
(** A finite value. *)
Definition finite (x : ereal) : Prop := exists q, x = EFin q.
End Exact.

(** ** The order used by the selection: definitions *)

(** [topk_gt] is a strict weak order: no two values are each strictly
    larger than the other, and "not larger" is transitive. *)
Class TopkOrder (A : Type) `{Scalar A} : Prop := {
  topk_gt_asym : forall x y : A, topk_gt x y = true -> topk_gt y x = false;
  topk_gt_negtrans : forall x y z : A,
    topk_gt x y = false -> topk_gt y z = false -> topk_gt x z = false;
}.

(** Two values tie when neither is strictly larger. *)
Definition topk_tie `{Scalar A} (x y : A) : Prop :=
  topk_gt x y = false /\ topk_gt y x = false.

(** The position of indexed entries in the sorted slice: larger values
    first, and among tied values the lower index first. *)
Definition before `{Scalar A} (p q : nat * A) : Prop :=
  topk_gt p.2 q.2 = true \/ (topk_gt q.2 p.2 = false /\ (p.1 < q.1)%nat).

(** What the documentation of [torch.topk] fixes about the indices
    returned for one slice: [k] distinct positions of the slice, listed
    with the larger values first, none of which holds a value smaller
    than a value that was left out.  Which of several equal values is
    taken is not fixed. *)
Definition topk_admissible `{Scalar A} (xs : list A) (k : Z) (i : list nat)
  : Prop :=
  Z.of_nat (length i) = k /\ NoDup i /\
  Forall (fun c => (c < length xs)%nat) i /\
  StronglySorted
    (fun c c' => forall a a',
       xs !! c = Some a -> xs !! c' = Some a' -> topk_gt a' a = false) i /\
  forall c c' a a', c ∈ i -> c' ∉ i ->
    xs !! c = Some a -> xs !! c' = Some a' -> topk_gt a' a = false.

(** No two channels of the slice hold values that tie. *)
Definition distinct_values `{Scalar A} (xs : list A) : Prop :=
  forall i j a b, i <> j -> xs !! i = Some a -> xs !! j = Some b ->
    ~ topk_tie a b.

(** Multiplication by [c] is exact on the slice [xs] under a gate of
    size [k]: it keeps the order of the values and the zero, multiplies
    the sum of the scattered slice by [c], and leaves the quotient of
    every scattered value by that sum unchanged. *)
Definition scales_exactly `{Scalar A} (c : A) (k : Z) (xs : list A) : Prop :=
  (forall a b, a ∈ xs -> b ∈ xs ->
     topk_gt (s_mul c a) (s_mul c b) = topk_gt a b) /\
  s_mul c s_zero = s_zero /\
  forall ys, select_row k xs = Some ys ->
    sum_row (s_mul c <$> ys) = s_mul c (sum_row ys) /\
    Forall (fun y => s_div (s_mul c y) (s_mul c (sum_row ys))
                     = s_div y (sum_row ys)) ys.

(** ** Further definitions *)

(** Blending a value with itself at the weights 1 and 0 gives the value
    back.  Every finite value has this property, in binary32 and in
    exact arithmetic; infinities and NaN do not, since [0 * inf] is
    NaN. *)
Definition blend_exact `{Scalar A} (v : A) : Prop :=
  s_add (s_mul s_one v) (s_mul s_zero v) = v.

(** [v] lies strictly within [eps] of [target]. *)
Definition within (eps v target : Q) : Prop :=
  (target - eps < v)%Q /\ (v < target + eps)%Q.

(** Equalities between computed tensors of exact values: the rationals
    are compared by their canonical fractions. *)
Ltac exact_tensor_eq :=
  vm_compute;
  repeat match goal with
         | |- EFin _ = EFin _ =>
             apply (f_equal EFin), Qc_is_canon; vm_compute; reflexivity
         | |- _ => reflexivity
         | |- _ => progress f_equal
         end.

(** ** Concrete tensors *)

(** The single frame [[0.1, 0.5, 0.3, 0.9]], as binary32 values and as
    exact rationals. *)
Definition gate_input_b32 : tensor3 spec_float :=
  [[[B32.of_ratio 1 10; B32.of_ratio 5 10; B32.of_ratio 3 10;
     B32.of_ratio 9 10]]].

Definition gate_input_exact : tensor3 ereal :=
  [[[Exact.of_ratio 1 10; Exact.of_ratio 5 10; Exact.of_ratio 3 10;
     Exact.of_ratio 9 10]]].

(** The time axis [[0, 1, ..., 7]] of a tensor of shape [[1, 1, 8]]. *)
Definition ramp_b32 : tensor3 spec_float :=
  [[B32.of_Z <$> [0; 1; 2; 3; 4; 5; 6; 7]]].

Definition ramp_exact : tensor3 ereal :=
  [[Exact.of_Z <$> [0; 1; 2; 3; 4; 5; 6; 7]]].

(** A frame with a single non-zero channel. *)
Definition sparse_input_b32 : tensor3 spec_float :=
  [[[B32.of_Z 1; B32.of_Z 0; B32.of_Z 0]]].

Definition sparse_input_exact : tensor3 ereal :=
  [[[Exact.of_Z 1; Exact.of_Z 0; Exact.of_Z 0]]].

(** A frame whose two largest values, about [3e38] each, have a sum
    beyond the binary32 range. *)
Definition overflow_input_b32 : tensor3 spec_float :=
  [[[B32.of_Z 300000000000000000000000000000000000000;
     B32.of_Z 300000000000000000000000000000000000000; B32.of_Z 1]]].

(** A frame whose channel sum is rounded in binary32. *)
Definition wide_input_b32 : tensor3 spec_float :=
  [[[B32.of_Z 1; B32.of_Z 16777216; B32.of_ratio 1 2]]].

(** A frame in which three channels tie below the largest value. *)
Definition boundary_tie_b32 : tensor3 spec_float :=
  [[[B32.of_Z 2; B32.of_Z 1; B32.of_Z 1; B32.of_Z 1]]].

(** Two feature tensors of one batch entry and two time steps, with one
    and two channels. *)
Definition first_features : tensor3 spec_float :=
  [[[B32.of_Z 1; B32.of_Z 2]]].

Definition second_features : tensor3 spec_float :=
  [[[B32.of_Z 3; B32.of_Z 4]; [B32.of_Z 5; B32.of_Z 6]]].

(** A frame of zeros. *)
Definition zero_input_b32 : tensor3 spec_float :=
  [[[B32.of_Z 0; B32.of_Z 0; B32.of_Z 0]]].

(** The scenario frame followed by a second frame of the same batch. *)
Definition two_frames_b32 : tensor3 spec_float :=
  [[[B32.of_ratio 1 10; B32.of_ratio 5 10; B32.of_ratio 3 10;
     B32.of_ratio 9 10];
    [B32.of_Z 1; B32.of_Z 0; B32.of_Z 0; B32.of_Z 0]]].

(** Two encoder outputs of one batch entry and two frames, with one and
    two channels; transposed they are the two feature tensors above. *)
Definition first_hidden : tensor3 spec_float :=
  [[[B32.of_Z 1]; [B32.of_Z 2]]].

Definition second_hidden : tensor3 spec_float :=
  [[[B32.of_Z 3; B32.of_Z 5]; [B32.of_Z 4; B32.of_Z 6]]].

(** A feature tensor of one channel and three time steps. *)
Definition long_features : tensor3 spec_float :=
  [[[B32.of_Z 1; B32.of_Z 2; B32.of_Z 3]]].


(** ** The methods from the encoder output on *)

(** The encoders, the feature extractors and the audio preprocessing
    are library code; where a method calls them they are parameters. *)
Module FromEncoder.
(** Lines 89-101 of [ChineseHubert.forward]; [last_hidden_state] is the
    encoder output of shape [[B, T, C]]. *)
Definition ChineseHubert_forward {A : Type} `{Scalar A}
    (last_hidden_state : tensor3 A) (downsample : option Z)
  : option (tensor3 A) :=
  let features := transpose12 last_hidden_state in
  ChineseHubert.forward features downsample.

(** The attributes that [EnsembleHubert.__init__] sets (lines 116-123). *)
Record EnsembleHubert_self (FE HM : Type) := {
  feature_extractors : list FE;
  model : list HM;
  downsample : option Z;
}.
Arguments feature_extractors {FE HM} _.
Arguments model {FE HM} _.
Arguments downsample {FE HM} _.

(** Lines 116-123: one feature extractor and one encoder per entry of
    [models], in its order. *)
Definition EnsembleHubert_init {Id FE HM : Type}
    (extractor_from_pretrained : Id -> FE) (model_from_pretrained : Id -> HM)
    (models : list Id) (downsample : option Z) : EnsembleHubert_self FE HM :=
  {| feature_extractors := extractor_from_pretrained <$> models;
     model := model_from_pretrained <$> models;
     downsample := downsample |}.

(** Lines 127-152: the loop over [zip(self.feature_extractors,
    self.model)] appends one transposed feature tensor per pair; the
    tensors are then concatenated and resampled. *)
Definition EnsembleHubert_forward {A Audio Input FE HM : Type} `{Scalar A}
    (call_extractor : FE -> Audio -> Input)
    (call_model : HM -> Input -> tensor3 A)
    (self : EnsembleHubert_self FE HM) (audio : Audio)
  : option (tensor3 A) :=
  let features :=
    (fun p : FE * HM =>
       transpose12 (call_model p.2 (call_extractor p.1 audio)))
    <$> zip (feature_extractors self) (model self) in
  EnsembleHubert.forward features (downsample self).
End FromEncoder.

(** ** The tensor operations act slice by slice *)

Section Slicewise.
Context {A : Type} `{Scalar A}.

Lemma scatter_along_mapM {X Y R I S}
    (f : X -> I -> S -> option X) (g : Y -> X) (hi : R -> I) (hs : R -> S)
    (step : Y -> option R) (l : list Y) :
  (r ← mapM step l; scatter_along f (g <$> l) (hi <$> r) (hs <$> r))
  = mapM (M := option) (fun y => r ← step y; f (g y) (hi r) (hs r)) l.
Proof.
  induction l as [|a l IH]; [done|].
  cbn [mapM]. rewrite <- IH. clear IH.
  destruct (step a) as [r0|]; [|done]. cbn.
  destruct (mapM step l) as [r|]; cbn.
  - by destruct (f (g a) (hi r0) (hs r0)).
  - by destruct (f (g a) (hi r0) (hs r0)).
Qed.

Lemma mapM_zip_fmap {X Y R} (f : X -> Y -> option R) (h : X -> Y) (l : list X) :
  mapM (fun p => f p.1 p.2) (zip l (h <$> l))
  = mapM (M := option) (fun x => f x (h x)) l.
Proof. induction l as [|a l IH]; [done|]. cbn. by rewrite IH. Qed.

Lemma bcast_fmap {X Y R} (f : X -> Y -> option R) (h : X -> Y) (l : list X) :
  bcast f l (h <$> l) = mapM (M := option) (fun x => f x (h x)) l.
Proof.
  destruct l as [|a [|b l]]; [done..|].
  unfold bcast. cbn [fmap list_fmap].
  rewrite decide_True by (cbn; by rewrite length_fmap).
  apply (mapM_zip_fmap f h (a :: b :: l)).
Qed.

Lemma mapM_Some_fmap {X Y} (g : X -> Y) (l : list X) :
  mapM (M := option) (fun a => Some (g a)) l = Some (g <$> l).
Proof. induction l as [|a l IH]; [done|]. cbn. by rewrite IH. Qed.

(** [x / x.sum(2, keepdim=True)] divides every slice by its own sum. *)
Lemma div_sum_keepdim (x : tensor3 A) :
  div x (sum_keepdim x)
  = Some (fmap2 (fun r => (fun y => s_div y (sum_row r)) <$> r) x).
Proof.
  unfold div, sum_keepdim, fmap2. rewrite bcast_fmap.
  erewrite mapM_ext; [apply mapM_Some_fmap|].
  intros m. cbn beta. rewrite bcast_fmap.
  erewrite mapM_ext; [apply mapM_Some_fmap|].
  intros r. cbn beta. unfold bcast.
  destruct r as [|? [|? ?]]; apply mapM_Some_fmap.
Qed.

(** Lines 60-61 select within every slice independently. *)
Lemma gate_select_slicewise (x : tensor3 A) (k : Z) :
  gate_select x k = mapM (mapM (select_row k)) x.
Proof.
  unfold gate_select, topk, scatter, zeros_like, fmap3, fmap2.
  destruct (mapM (mapM (topk_row k)) x) as [r|] eqn:Hr; cbn.
  - pose proof (scatter_along_mapM (scatter_along scatter_row)
      (fun m : list (list A) => (fun r : list A => (fun _ => s_zero) <$> r) <$> m)
      (fun m : list (list A * list nat) => snd <$> m)
      (fun m : list (list A * list nat) => fst <$> m)
      (mapM (topk_row k)) x) as E.
    rewrite Hr in E. cbn in E. rewrite E. apply mapM_ext. intros m.
    pose proof (scatter_along_mapM scatter_row
      (fun r : list A => (fun _ => s_zero) <$> r) snd fst (topk_row k) m) as E'.
    rewrite E'. apply mapM_ext. intros r0. unfold select_row.
    by destruct (topk_row k r0) as [[]|].
  - symmetry. apply mapM_None. apply mapM_None in Hr.
    eapply Exists_impl; [exact Hr|]. intros m Hm. cbn in Hm.
    apply mapM_None. apply mapM_None in Hm.
    eapply Exists_impl; [exact Hm|]. intros r0 Hr0. cbn in Hr0.
    unfold select_row. by rewrite Hr0.
Qed.

(** Lines 60-62 gate every slice independently. *)
Lemma topk_gate_slicewise (x : tensor3 A) (k : Z) :
  topk_gate x k = mapM (mapM (gate_row k)) x.
Proof.
  unfold topk_gate. rewrite gate_select_slicewise.
  destruct (mapM (mapM (select_row k)) x) as [s|] eqn:Hs; cbn.
  - rewrite div_sum_keepdim. symmetry. apply mapM_Some.
    apply mapM_Some in Hs. unfold fmap2.
    apply Forall2_fmap_r. eapply Forall2_impl; [exact Hs|].
    intros m sm Hm. cbn in Hm. apply mapM_Some. apply mapM_Some in Hm.
    apply Forall2_fmap_r. eapply Forall2_impl; [exact Hm|].
    intros r sr Hsel. cbn in Hsel. unfold gate_row. by rewrite Hsel.
  - symmetry. apply mapM_None. apply mapM_None in Hs.
    eapply Exists_impl; [exact Hs|]. intros m Hm. cbn in Hm.
    apply mapM_None. apply mapM_None in Hm.
    eapply Exists_impl; [exact Hm|]. intros r0 Hr0. cbn in Hr0.
    unfold gate_row. by rewrite Hr0.
Qed.

(** The slices of a slice-wise result. *)
Lemma mapM2_slice {X Y} (f : X -> option Y)
    (x : list (list X)) (y : list (list Y)) (b t : nat) :
  mapM (mapM f) x = Some y ->
  slice y b t = slice x b t ≫= f.
Proof.
  intros Hxy. apply mapM_Some in Hxy. unfold slice.
  destruct (x !! b) as [m|] eqn:Hm; cbn.
  - destruct (Forall2_lookup_l _ _ _ _ _ Hxy Hm) as (m' & -> & Hmm). cbn.
    apply mapM_Some in Hmm.
    destruct (m !! t) as [r|] eqn:Hr; cbn.
    + by destruct (Forall2_lookup_l _ _ _ _ _ Hmm Hr) as (r' & -> & ->).
    + apply Forall2_length in Hmm.
      apply lookup_ge_None in Hr. apply lookup_ge_None. lia.
  - apply Forall2_length in Hxy.
    apply lookup_ge_None in Hm.
    rewrite (proj2 (lookup_ge_None y b)); [done|lia].
Qed.
End Slicewise.

(** ** The order used by the selection *)

Section Sorting.
Context {A : Type} `{Scalar A}.

Lemma insert_desc_perm (p : nat * A) l : insert_desc p l ≡ₚ p :: l.
Proof.
  induction l as [|q l IH]; [done|]. cbn.
  destruct (topk_gt q.2 p.2); [|done].
  rewrite IH. apply Permutation_swap.
Qed.

Lemma foldr_insert_desc_perm (l : list (nat * A)) :
  foldr insert_desc [] l ≡ₚ l.
Proof.
  induction l as [|p l IH]; [done|]. cbn.
  by rewrite insert_desc_perm, IH.
Qed.

Lemma sort_desc_perm (xs : list A) : sort_desc xs ≡ₚ imap pair xs.
Proof. apply foldr_insert_desc_perm. Qed.

Lemma length_sort_desc (xs : list A) : length (sort_desc xs) = length xs.
Proof. by rewrite sort_desc_perm, length_imap. Qed.

Lemma sort_desc_fst (xs : list A) : (sort_desc xs).*1 ≡ₚ seq 0 (length xs).
Proof.
  rewrite sort_desc_perm, fmap_imap.
  rewrite (imap_ext _ (fun j _ => j)) by done.
  by rewrite (imap_seq_0 xs (fun j => j)), list_fmap_id.
Qed.

Lemma sort_desc_NoDup (xs : list A) : NoDup (sort_desc xs).*1.
Proof. rewrite sort_desc_fst. apply NoDup_seq. Qed.

(** Every entry of the sorted slice is an entry of the slice, at the
    index it carries. *)
Lemma elem_of_sort_desc (xs : list A) (i : nat) (v : A) :
  (i, v) ∈ sort_desc xs <-> xs !! i = Some v.
Proof.
  rewrite sort_desc_perm, elem_of_lookup_imap. split.
  - intros (j & w & [= -> ->] & Hj). done.
  - intros Hi. eauto.
Qed.

Lemma topk_row_Some (k : Z) (xs : list A) :
  0 <= k <= Z.of_nat (length xs) ->
  topk_row k xs
  = Some ((take (Z.to_nat k) (sort_desc xs)).*2,
          (take (Z.to_nat k) (sort_desc xs)).*1).
Proof. intros Hk. unfold topk_row. by rewrite decide_True. Qed.

Lemma topk_row_None (k : Z) (xs : list A) :
  ~ (0 <= k <= Z.of_nat (length xs)) -> topk_row k xs = None.
Proof. intros Hk. unfold topk_row. by rewrite decide_False. Qed.

Section Order.
Context `{!TopkOrder A}.

Lemma before_not_gt (p q : nat * A) : before p q -> topk_gt q.2 p.2 = false.
Proof. intros [Hgt|[? _]]; [by apply topk_gt_asym|done]. Qed.

Lemma insert_desc_sorted (p : nat * A) (l : list (nat * A)) :
  StronglySorted before l ->
  Forall (fun q => (p.1 < q.1)%nat) l ->
  StronglySorted before (insert_desc p l).
Proof.
  induction l as [|q l IH]; intros Hs Hlt; cbn.
  { repeat constructor. }
  apply StronglySorted_cons in Hs as [Hq Hs].
  apply Forall_cons in Hlt as [Hpq Hlt].
  destruct (topk_gt q.2 p.2) eqn:Hgt.
  - apply StronglySorted_cons. split; [|by apply IH].
    rewrite insert_desc_perm. constructor; [by left|done].
  - apply StronglySorted_cons. split; [|by apply StronglySorted_cons].
    constructor; [by right|].
    apply Forall_forall. intros r Hr. right.
    rewrite Forall_forall in Hq, Hlt. split; [|by apply Hlt].
    eapply topk_gt_negtrans; [|exact Hgt].
    by apply before_not_gt, Hq.
Qed.

Lemma foldr_insert_desc_sorted (l : list (nat * A)) :
  StronglySorted (fun p q => (p.1 < q.1)%nat) l ->
  StronglySorted before (foldr insert_desc [] l).
Proof.
  induction l as [|p l IH]; intros Hl; cbn; [constructor|].
  apply StronglySorted_cons in Hl as [Hp Hl].
  apply insert_desc_sorted; [by apply IH|].
  by rewrite foldr_insert_desc_perm.
Qed.

Lemma imap_pair_increasing (xs : list A) (n : nat) :
  StronglySorted (fun p q : nat * A => (p.1 < q.1)%nat)
    (imap (fun i v => ((n + i)%nat, v)) xs).
Proof.
  revert n. induction xs as [|x xs IH]; intros n; [constructor|].
  rewrite imap_cons. apply StronglySorted_cons. split.
  - apply Forall_forall. intros [j w] Hj.
    apply elem_of_lookup_imap in Hj as (i & v & [= -> ->] & _). cbn. lia.
  - rewrite (imap_ext _ (fun i v => ((S n + i)%nat, v))); [apply IH|].
    intros i v _. cbn. f_equal. lia.
Qed.

(** The sorted slice is in selection order. *)
Lemma sort_desc_sorted (xs : list A) : StronglySorted before (sort_desc xs).
Proof. apply foldr_insert_desc_sorted, (imap_pair_increasing xs 0). Qed.

(** Whatever is selected comes before whatever is not. *)
Lemma take_before_drop (xs : list A) (n : nat) (p q : nat * A) :
  p ∈ take n (sort_desc xs) -> q ∈ drop n (sort_desc xs) -> before p q.
Proof.
  intros Hp Hq. pose proof (sort_desc_sorted xs) as Hs.
  rewrite <- (take_drop n (sort_desc xs)) in Hs.
  by apply (StronglySorted_app_1_elem_of _ _ _ _ _ Hs).
Qed.
End Order.
End Sorting.

(** ** Selection and scatter on one slice *)

Section Rows.
Context {A : Type} `{Scalar A}.

(** [scatter_row] succeeds on in-range indices; it keeps the entries
    that are not addressed and, when no index repeats, stores every
    source value at its index. *)
Lemma scatter_row_spec (idx : list nat) (vals self : list A) :
  length idx = length vals ->
  Forall (fun i => (i < length self)%nat) idx ->
  exists r, scatter_row self idx vals = Some r /\
    length r = length self /\
    (forall c, c ∉ idx -> r !! c = self !! c) /\
    (NoDup idx -> forall j i v,
       idx !! j = Some i -> vals !! j = Some v -> r !! i = Some v).
Proof.
  revert vals self. induction idx as [|i idx IH]; intros vals self Hlen Hin.
  { exists self. split; [done|]. split; [done|]. split; [done|].
    intros _ j i v Hj. done. }
  destruct vals as [|v vals]; [done|].
  apply Forall_cons in Hin as [Hi Hin]. cbn [scatter_row].
  rewrite decide_True by done.
  destruct (IH vals (<[i:=v]> self)) as (r & Hr & Hlr & Hkeep & Hput).
  { cbn in Hlen. lia. }
  { by rewrite length_insert. }
  exists r. rewrite length_insert in Hlr. split; [done|]. split; [done|]. split.
  - intros c Hc. apply not_elem_of_cons in Hc as [Hci Hc].
    rewrite Hkeep by done. by apply list_lookup_insert_ne.
  - intros Hnd j i' v' Hj Hv. apply NoDup_cons in Hnd as [Hni Hnd].
    destruct j as [|j]; cbn in Hj, Hv.
    + injection Hj as <-. injection Hv as <-.
      rewrite Hkeep by done. by apply list_lookup_insert_eq.
    + by apply (Hput Hnd j).
Qed.

Lemma NoDup_take_fst (xs : list A) (n : nat) :
  NoDup (take n (sort_desc xs)).*1.
Proof.
  rewrite fmap_take. eapply sublist_NoDup; [|apply sublist_take].
  apply sort_desc_NoDup.
Qed.

Lemma elem_of_take_sort_desc (xs : list A) (n i : nat) (v : A) :
  (i, v) ∈ take n (sort_desc xs) -> xs !! i = Some v.
Proof.
  intros Hi. apply elem_of_sort_desc.
  rewrite <- (take_drop n (sort_desc xs)). apply elem_of_app. by left.
Qed.

(** An index is either selected or left out, never both. *)
Lemma elem_of_drop_sort_desc (xs : list A) (n c : nat) (a : A) :
  xs !! c = Some a -> c ∉ (take n (sort_desc xs)).*1 ->
  (c, a) ∈ drop n (sort_desc xs).
Proof.
  intros Hc Hn. apply elem_of_sort_desc in Hc.
  rewrite <- (take_drop n (sort_desc xs)) in Hc.
  apply elem_of_app in Hc as [Hc|Hc]; [|done].
  destruct Hn. apply list_elem_of_fmap. by exists (c, a).
Qed.

(** Lines 60-61 on one slice: the selected entries keep their value at
    their own index and every other entry is zero. *)
Lemma select_row_spec (k : Z) (xs : list A) :
  0 <= k <= Z.of_nat (length xs) ->
  exists ys, select_row k xs = Some ys /\
    length ys = length xs /\
    (forall i v, (i, v) ∈ take (Z.to_nat k) (sort_desc xs) -> ys !! i = Some v) /\
    (forall c, (c < length xs)%nat ->
       c ∉ (take (Z.to_nat k) (sort_desc xs)).*1 -> ys !! c = Some s_zero).
Proof.
  intros Hk. unfold select_row. rewrite topk_row_Some by done. cbn.
  set (top := take (Z.to_nat k) (sort_desc xs)).
  destruct (scatter_row_spec top.*1 top.*2 ((fun _ => s_zero) <$> xs))
    as (ys & Hys & Hlen & Hkeep & Hput).
  { by rewrite !length_fmap. }
  { apply Forall_forall. intros i Hi.
    apply list_elem_of_fmap in Hi as ([i' v] & -> & Hi). cbn.
    rewrite length_fmap. eapply lookup_lt_Some.
    by eapply elem_of_take_sort_desc. }
  exists ys. rewrite length_fmap in Hlen. repeat split; [done..| |].
  - intros i v Hi. apply list_elem_of_lookup in Hi as [j Hj].
    apply (Hput (NoDup_take_fst xs _) j).
    + by rewrite list_lookup_fmap, Hj.
    + by rewrite list_lookup_fmap, Hj.
  - intros c Hc Hn. rewrite Hkeep by done.
    rewrite list_lookup_fmap.
    destruct (lookup_lt_is_Some_2 xs c Hc) as [a ->]. done.
Qed.

Lemma select_row_None (k : Z) (xs : list A) :
  ~ (0 <= k <= Z.of_nat (length xs)) -> select_row k xs = None.
Proof. intros Hk. unfold select_row. by rewrite topk_row_None. Qed.

Lemma gate_row_Some (k : Z) (xs : list A) :
  0 <= k <= Z.of_nat (length xs) ->
  exists ys, select_row k xs = Some ys /\ length ys = length xs /\
    gate_row k xs = Some ((fun y => s_div y (sum_row ys)) <$> ys).
Proof.
  intros Hk. destruct (select_row_spec k xs Hk) as (ys & Hys & Hlen & _).
  exists ys. unfold gate_row. by rewrite Hys.
Qed.

(** A slice-wise function that succeeds on every slice of length [n2]
    succeeds on every tensor whose last axis has that length. *)
Lemma mapM2_shape {X Y} (f : list X -> option (list Y))
    (n0 n1 n2 n2' : nat) (x : tensor3 X) :
  has_shape n0 n1 n2 x ->
  (forall r, length r = n2 -> exists r', f r = Some r' /\ length r' = n2') ->
  exists y, mapM (mapM f) x = Some y /\ has_shape n0 n1 n2' y.
Proof.
  intros [Hn0 Hx] Hf.
  assert (forall m, Forall (fun r => length r = n2) m ->
            exists m', mapM f m = Some m' /\ length m' = length m /\
                       Forall (fun r => length r = n2') m') as Hrow.
  { induction m as [|r m IH]; intros Hm.
    { exists []. by repeat split. }
    apply Forall_cons in Hm as [Hr Hm].
    destruct (Hf r Hr) as (r' & Hr' & Hl).
    destruct (IH Hm) as (m' & Hm' & Hlm & Hall).
    exists (r' :: m'). cbn. rewrite Hr', Hm'. cbn.
    repeat split; [by rewrite Hlm|by constructor]. }
  subst n0. induction x as [|m x IH].
  { exists []. by repeat split. }
  apply Forall_cons in Hx as [[Hm1 Hm] Hx].
  destruct (Hrow m Hm) as (m' & Hm' & Hlm & Hall).
  destruct (IH Hx) as (y & Hy & Hly & Hys).
  exists (m' :: y). cbn. rewrite Hm', Hy. cbn.
  split; [done|]. split; [cbn; by rewrite Hly|].
  constructor; [split; [lia|done]|done].
Qed.

Lemma slice_fmap2 {X Y} (f : X -> Y) (x : list (list X)) (b t : nat) :
  slice (fmap2 f x) b t = f <$> slice x b t.
Proof.
  unfold slice, fmap2. rewrite list_lookup_fmap.
  destruct (x !! b) as [m|]; [|done]. cbn. by rewrite list_lookup_fmap.
Qed.

Lemma slice_shape {X} (n0 n1 n2 : nat) (x : tensor3 X) (b t : nat) (r : list X) :
  has_shape n0 n1 n2 x -> slice x b t = Some r ->
  (b < n0)%nat /\ (t < n1)%nat /\ length r = n2.
Proof.
  intros [Hn0 Hx] Hs. unfold slice in Hs.
  destruct (x !! b) as [m|] eqn:Hm; [|done]. cbn in Hs.
  rewrite Forall_forall in Hx.
  destruct (Hx m) as [Hn1 Hr]; [by eapply list_elem_of_lookup_2|].
  rewrite Forall_forall in Hr.
  repeat split.
  - rewrite <- Hn0. by eapply lookup_lt_Some.
  - rewrite <- Hn1. by eapply lookup_lt_Some.
  - apply Hr. by eapply list_elem_of_lookup_2.
Qed.
End Rows.

(** ** The selection order of the two scalar types *)

Module B32Order.
Import B32.

Lemma topk_gt_key (x y : spec_float) :
  topk_gt x y = true <-> lex_lt (key y) (key x).
Proof.
  unfold topk_gt, lex_lt. cbn [s_isnan s_ltb scalar].
  destruct x as [sx|sx| |sx mx ex], y as [sy|sy| |sy my ey];
    try destruct sx; try destruct sy; cbn; try (intuition (done || lia)).
  - unfold SFltb. cbn.
    destruct (Z.compare_spec ey ex) as [->|?|?].
    + change (Pos.compare_cont Eq my mx) with (Pos.compare my mx).
      destruct (Pos.compare_spec my mx) as [->|?|?]; cbn; intuition (done || lia).
    + intuition (done || lia).
    + intuition (done || lia).
  - unfold SFltb. cbn.
    destruct (Z.compare_spec ey ex) as [->|?|?].
    + change (Pos.compare_cont Eq my mx) with (Pos.compare my mx).
      destruct (Pos.compare_spec my mx) as [->|?|?]; cbn; intuition (done || lia).
    + intuition (done || lia).
    + intuition (done || lia).
Qed.

Lemma topk_gt_key_false (x y : spec_float) :
  topk_gt x y = false <-> ~ lex_lt (key y) (key x).
Proof. rewrite <- topk_gt_key. by destruct (topk_gt x y). Qed.

#[global] Instance order : TopkOrder spec_float.
Proof.
  split.
  - intros x y. rewrite topk_gt_key, topk_gt_key_false.
    unfold lex_lt. destruct (key x) as [[??]?], (key y) as [[??]?]. cbn. lia.
  - intros x y z. rewrite !topk_gt_key_false.
    unfold lex_lt.
    destruct (key x) as [[??]?], (key y) as [[??]?], (key z) as [[??]?].
    cbn. lia.
Qed.
End B32Order.

Module ExactOrder.
Import Exact.

Lemma Qc_ltb_lt (a b : Qc) : Qc_ltb a b = true <-> (a < b)%Qc.
Proof. unfold Qc_ltb, Qclt, Qlt. apply Z.ltb_lt. Qed.

Lemma Qc_ltb_ge (a b : Qc) : Qc_ltb a b = false <-> (b <= a)%Qc.
Proof. unfold Qc_ltb, Qcle, Qle. rewrite Z.ltb_ge. done. Qed.

Lemma Qc_eqb_eq (a b : Qc) : Qc_eqb a b = true <-> a = b.
Proof.
  unfold Qc_eqb. rewrite Z.eqb_eq. split.
  - intros Heq. by apply Qc_is_canon.
  - by intros ->.
Qed.

Lemma Qc_eqb_neq (a b : Qc) : Qc_eqb a b = false <-> a <> b.
Proof. rewrite <- Qc_eqb_eq. by destruct (Qc_eqb a b). Qed.

#[global] Instance order : TopkOrder ereal.
Proof.
  split.
  - intros [a|[]|] [b|[]|]; cbn; try done.
    rewrite Qc_ltb_lt, Qc_ltb_ge. apply Qclt_le_weak.
  - intros [a|[]|] [b|[]|] [c|[]|]; cbn; try done.
    rewrite !Qc_ltb_ge. intros ??. by eapply Qcle_trans.
Qed.
End ExactOrder.

(** ** The gate on whole tensors *)

Section Gate.
Context {A : Type} `{Scalar A}.

Lemma topk_slice (x : tensor3 A) (k : Z) vals inds (b t : nat) :
  topk x k = Some (vals, inds) ->
  slice vals b t = fst <$> (slice x b t ≫= topk_row k) /\
  slice inds b t = snd <$> (slice x b t ≫= topk_row k).
Proof.
  unfold topk. intros Ht.
  destruct (mapM (mapM (topk_row k)) x) as [r|] eqn:Hr; [|done].
  cbn in Ht. injection Ht as <- <-.
  rewrite !slice_fmap2, (mapM2_slice _ _ _ b t Hr). done.
Qed.

Lemma topk_shape (B T C : nat) (k : Z) (x : tensor3 A) :
  has_shape B T C x -> 0 <= k <= Z.of_nat C ->
  exists vals inds, topk x k = Some (vals, inds).
Proof.
  intros Hx Hk. unfold topk.
  destruct (mapM2_shape
    (fun r => fst <$> topk_row k r) B T C (Z.to_nat k) x Hx) as (y & Hy & _).
  { intros r <-. rewrite topk_row_Some by done. cbn. eexists. split; [done|].
    rewrite length_fmap, length_take_le; [done|]. rewrite length_sort_desc. lia. }
  destruct (mapM (mapM (topk_row k)) x) as [r|] eqn:Hr; [cbn; eauto|].
  exfalso. apply mapM_None in Hr. apply Exists_exists in Hr as (m & Hm & Hn).
  cbn in Hn. apply mapM_None in Hn. apply Exists_exists in Hn as (r & Hr & Hn).
  destruct Hx as [_ Hx]. rewrite Forall_forall in Hx.
  destruct (Hx m Hm) as [_ Hrows]. rewrite Forall_forall in Hrows.
  rewrite topk_row_Some in Hn; [done|]. rewrite (Hrows r Hr). done.
Qed.

Lemma gate_select_shape (B T C : nat) (k : Z) (x : tensor3 A) :
  has_shape B T C x -> 0 <= k <= Z.of_nat C ->
  exists sel, gate_select x k = Some sel /\ has_shape B T C sel.
Proof.
  intros Hx Hk. rewrite gate_select_slicewise.
  apply (mapM2_shape _ B T C C x Hx). intros r <-.
  destruct (select_row_spec k r Hk) as (ys & -> & Hlen & _). eauto.
Qed.

(** The gate succeeds on every tensor whose channel axis holds at
    least [k] entries, and keeps the shape. *)
Lemma topk_gate_shape (B T C : nat) (k : Z) (x : tensor3 A) :
  has_shape B T C x -> 0 <= k <= Z.of_nat C ->
  exists y, topk_gate x k = Some y /\ has_shape B T C y.
Proof.
  intros Hx Hk. rewrite topk_gate_slicewise.
  apply (mapM2_shape _ B T C C x Hx). intros r <-.
  destruct (gate_row_Some k r Hk) as (ys & _ & Hlen & ->).
  eexists. split; [done|]. by rewrite length_fmap.
Qed.
End Gate.

(** ** Selection correctness *)

(** C3. For a tensor of shape [[B, T, C]] and a gate size [0 <= k <= C],
    lines 60-61 succeed, and at every position [(b, t)]: [topk] returns
    [k] distinct channel indices; each selected channel holds, in the
    scattered tensor, exactly the input value of that channel (the signed
    value, which is also the value [topk] returned for it); every other
    channel is zero; and no value that was left out is larger than a
    value that was kept. *)
Theorem gate_retains_k_largest {A : Type} `{Scalar A} `{!TopkOrder A}
    (B T C : nat) (k : Z) (x : tensor3 A) :
  has_shape B T C x -> 0 <= k <= Z.of_nat C ->
  exists vals inds sel,
    topk x k = Some (vals, inds) /\ gate_select x k = Some sel /\
    forall b t xs, slice x b t = Some xs ->
      exists v i ys,
        slice vals b t = Some v /\ slice inds b t = Some i /\
        slice sel b t = Some ys /\
        length i = Z.to_nat k /\ NoDup i /\
        (forall j c, i !! j = Some c ->
           (c < C)%nat /\ v !! j = xs !! c /\ ys !! c = xs !! c) /\
        (forall c, (c < C)%nat -> c ∉ i -> ys !! c = Some s_zero) /\
        (forall c c' a a', c ∈ i -> c' ∉ i ->
           xs !! c = Some a -> xs !! c' = Some a' -> topk_gt a' a = false).
Proof.
  intros Hx Hk.
  destruct (topk_shape B T C k x Hx Hk) as (vals & inds & Htopk).
  destruct (gate_select_shape B T C k x Hx Hk) as (sel & Hsel & _).
  exists vals, inds, sel. split; [done|]. split; [done|].
  intros b t xs Hxs.
  destruct (slice_shape _ _ _ _ _ _ _ Hx Hxs) as (_ & _ & Hlen). subst C.
  destruct (topk_slice x k vals inds b t Htopk) as [Hv Hi].
  rewrite Hxs in Hv, Hi. cbn in Hv, Hi. rewrite topk_row_Some in Hv, Hi by done.
  cbn in Hv, Hi.
  rewrite gate_select_slicewise in Hsel.
  pose proof (mapM2_slice _ _ _ b t Hsel) as Hys. rewrite Hxs in Hys. cbn in Hys.
  destruct (select_row_spec k xs Hk) as (ys & Hsome & Hlys & Hkept & Hzero).
  rewrite Hsome in Hys.
  set (top := take (Z.to_nat k) (sort_desc xs)) in *.
  exists top.*2, top.*1, ys.
  split; [done|]. split; [done|]. split; [done|].
  split; [|split; [apply NoDup_take_fst|split; [|split; [done|]]]].
  - rewrite length_fmap. unfold top.
    rewrite length_take_le; [done|]. rewrite length_sort_desc. lia.
  - intros j c Hjc. rewrite list_lookup_fmap in Hjc. rewrite list_lookup_fmap.
    destruct (top !! j) as [[c0 w]|] eqn:Hj; [|done]. cbn in Hjc.
    injection Hjc as <-. cbn. apply list_elem_of_lookup_2 in Hj.
    rewrite (Hkept _ _ Hj). apply elem_of_take_sort_desc in Hj.
    split; [by eapply lookup_lt_Some|done].
  - intros c c' a a' Hc Hc' Ha Ha'.
    apply list_elem_of_fmap in Hc as ([c0 w] & -> & Hc). cbn in Ha.
    pose proof (elem_of_take_sort_desc _ _ _ _ Hc) as Hw.
    cbn in Hw. rewrite Ha in Hw. injection Hw as <-.
    pose proof (elem_of_drop_sort_desc xs (Z.to_nat k) c' a' Ha' Hc') as Hd.
    apply (before_not_gt (c0, a) (c', a')).
    by eapply take_before_drop.
Qed.

(** ** Ties at the selection boundary *)

Section Ties.
Context {A : Type} `{Scalar A} `{!TopkOrder A}.

Lemma StronglySorted_fst (xs : list A) (l : list (nat * A)) :
  (forall p, p ∈ l -> xs !! p.1 = Some p.2) ->
  StronglySorted before l ->
  StronglySorted
    (fun c c' => forall a a',
       xs !! c = Some a -> xs !! c' = Some a' -> topk_gt a' a = false) l.*1.
Proof.
  intros Hl Hs. induction Hs as [|p l Hs IH Hp]; cbn; [constructor|].
  constructor.
  - apply IH. intros q Hq. apply Hl. by right.
  - apply Forall_fmap, Forall_forall. intros q Hq a a' Ha Ha'. cbn in *.
    rewrite Forall_forall in Hp.
    rewrite (Hl p) in Ha by left. rewrite (Hl q) in Ha' by (by right).
    injection Ha as <-. injection Ha' as <-.
    by apply before_not_gt, Hp.
Qed.

(** The selection of the model is one that [torch.topk] may return. *)
Lemma topk_row_admissible (k : Z) (xs : list A) :
  0 <= k <= Z.of_nat (length xs) ->
  topk_admissible xs k (take (Z.to_nat k) (sort_desc xs)).*1.
Proof.
  intros Hk. set (top := take (Z.to_nat k) (sort_desc xs)).
  split; [|split; [|split; [|split]]].
  - unfold top. rewrite length_fmap, length_take_le; [lia|].
    rewrite length_sort_desc. lia.
  - apply NoDup_take_fst.
  - apply Forall_fmap, Forall_forall. intros [c a] Hc. cbn.
    eapply lookup_lt_Some. by eapply elem_of_take_sort_desc.
  - apply StronglySorted_fst.
    + intros [c a] Hc. by eapply elem_of_take_sort_desc.
    + pose proof (sort_desc_sorted xs) as Hs.
      rewrite <- (take_drop (Z.to_nat k) (sort_desc xs)) in Hs.
      by apply StronglySorted_app_1_l in Hs.
  - intros c c' a a' Hc Hc' Ha Ha'.
    apply list_elem_of_fmap in Hc as ([c0 w] & -> & Hc). cbn in Ha.
    pose proof (elem_of_take_sort_desc _ _ _ _ Hc) as Hw.
    cbn in Hw. rewrite Ha in Hw. injection Hw as <-.
    pose proof (elem_of_drop_sort_desc xs (Z.to_nat k) c' a' Ha' Hc') as Hd.
    apply (before_not_gt (c0, a) (c', a')).
    by eapply take_before_drop.
Qed.

(** Two lists of equally many distinct indices: an index of the first
    that the second lacks is made up for by one the first lacks. *)
Lemma NoDup_exchange (i1 i2 : list nat) (c : nat) :
  NoDup i1 -> NoDup i2 -> length i1 = length i2 ->
  c ∈ i1 -> c ∉ i2 -> exists c', c' ∈ i2 /\ (c' ∉ i1).
Proof.
  intros Hn1 Hn2 Hlen Hc Hc'.
  destruct (decide (Exists (fun c' => c' ∉ i1) i2)) as [Hex|Hall].
  { apply Exists_exists in Hex as (c' & ? & ?). by exists c'. }
  exfalso. apply not_Exists_Forall in Hall; [|apply _].
  rewrite Forall_forall in Hall.
  assert (i2 ⊆+ i1) as Hsub.
  { apply NoDup_submseteq; [done|]. intros c' Hin.
    destruct (decide (c' ∈ i1)) as [|Hout]; [done|].
    by destruct (Hall c' Hin). }
  apply submseteq_length_Permutation in Hsub; [|lia].
  apply Hc'. by rewrite Hsub.
Qed.

(** Two selections that [torch.topk] may return for one slice differ
    only among tied values. *)
Lemma topk_admissible_exchange (xs : list A) (k : Z) (i1 i2 : list nat)
    (c : nat) (a : A) :
  topk_admissible xs k i1 -> topk_admissible xs k i2 ->
  c ∈ i1 -> c ∉ i2 -> xs !! c = Some a ->
  exists c' a', c' ∈ i2 /\ (c' ∉ i1) /\ xs !! c' = Some a' /\ topk_tie a a'.
Proof.
  intros (Hl1 & Hn1 & Hb1 & _ & Hmax1) (Hl2 & Hn2 & Hb2 & _ & Hmax2) Hc Hc' Ha.
  destruct (NoDup_exchange i1 i2 c) as (c' & Hin & Hout); [done|done|lia|done..|].
  rewrite Forall_forall in Hb2.
  destruct (lookup_lt_is_Some_2 xs c' (Hb2 c' Hin)) as [a' Ha'].
  exists c', a'. do 3 (split; [done|]). split.
  - by apply (Hmax2 c' c a' a).
  - by apply (Hmax1 c c' a a').
Qed.
End Ties.

(** C7, as the code has it.  Line 60 leaves the choice among tied
    values to [torch.topk], which fixes no tie order.  For a tensor of
    shape [[B, T, C]] and [0 <= k <= C], the indices selected at a
    position are among those [torch.topk] may return, and any two
    selections it may return for a slice differ only at the tie: a
    channel that one retains and the other drops is tied with a channel
    that the other retains in its place.  That the lower index is the
    one retained is not guaranteed. *)
Theorem topk_ties_left_open {A : Type} `{Scalar A} `{!TopkOrder A}
    (B T C : nat) (k : Z) (x : tensor3 A) :
  has_shape B T C x -> 0 <= k <= Z.of_nat C ->
  exists vals inds,
    topk x k = Some (vals, inds) /\
    forall b t xs, slice x b t = Some xs ->
      (exists i, slice inds b t = Some i /\ topk_admissible xs k i) /\
      forall i1 i2 c a,
        topk_admissible xs k i1 -> topk_admissible xs k i2 ->
        c ∈ i1 -> c ∉ i2 -> xs !! c = Some a ->
        exists c' a',
          c' ∈ i2 /\ (c' ∉ i1) /\ xs !! c' = Some a' /\ topk_tie a a'.
Proof.
  intros Hx Hk.
  destruct (topk_shape B T C k x Hx Hk) as (vals & inds & Htopk).
  exists vals, inds. split; [done|]. intros b t xs Hxs.
  destruct (slice_shape _ _ _ _ _ _ _ Hx Hxs) as (_ & _ & Hlen). subst C.
  split.
  - destruct (topk_slice x k vals inds b t Htopk) as [_ Hi].
    rewrite Hxs in Hi. cbn in Hi. rewrite topk_row_Some in Hi by done.
    cbn in Hi. eexists. split; [exact Hi|]. by apply topk_row_admissible.
  - intros i1 i2 c a. apply topk_admissible_exchange.
Qed.

(** ** Frame locality *)

(** C10. The slice the gate returns at a position is the gate of the
    input slice at that position: two input tensors that hold the same
    channel slice at [(b, t)] get the same output slice there, whatever
    they hold elsewhere. *)
Theorem topk_gate_frame_local {A : Type} `{Scalar A}
    (k : Z) (x x' y y' : tensor3 A) (b t : nat) (xs : list A) :
  topk_gate x k = Some y -> topk_gate x' k = Some y' ->
  slice x b t = Some xs -> slice x' b t = Some xs ->
  slice y b t = gate_row k xs /\ slice y' b t = slice y b t.
Proof.
  rewrite !topk_gate_slicewise. intros Hy Hy' Hxs Hxs'.
  rewrite (mapM2_slice _ _ _ b t Hy), (mapM2_slice _ _ _ b t Hy').
  by rewrite Hxs, Hxs'.
Qed.

(** ** Concatenation *)

Section Concat.
Context {X : Type}.

Lemma shape2_has_shape (n0 n1 n2 : nat) (x : tensor3 X) :
  has_shape n0 n1 n2 x -> (0 < n0)%nat -> (0 < n1)%nat -> shape2 x = n2.
Proof.
  intros [Hn0 Hx] H0 H1. destruct x as [|m x]; cbn in Hn0; [lia|].
  apply Forall_cons in Hx as [[Hm Hr] _].
  destruct m as [|r m]; cbn in Hm; [lia|].
  by apply Forall_cons in Hr as [Hr _].
Qed.

Lemma has_shape_lookup (n0 n1 n2 : nat) (x : tensor3 X) :
  has_shape n0 n1 n2 x <->
  length x = n0 /\
  forall b m, x !! b = Some m ->
    length m = n1 /\ forall c r, m !! c = Some r -> length r = n2.
Proof.
  unfold has_shape. rewrite Forall_lookup.
  split; intros [Hn0 Hx]; (split; [done|]); intros b m Hm;
    destruct (Hx b m Hm) as [Hn1 Hr]; (split; [done|]).
  - by rewrite Forall_lookup in Hr.
  - by rewrite Forall_lookup.
Qed.

Lemma has_shape_concat (n0 n1 n2 : nat) (x : tensor3 X) :
  has_shape n0 n1 n2 x -> Forall (fun r => length r = n2) (concat x).
Proof.
  intros [_ Hx]. apply Forall_concat. eapply Forall_impl; [exact Hx|].
  by intros m [_ Hm].
Qed.

Lemma cat2_spec (B C1 C2 T : nat) (x1 x2 : tensor3 X) :
  has_shape B C1 T x1 -> has_shape B C2 T x2 ->
  cat2 x1 x2 = Some (zip_with app x1 x2) /\
  has_shape B (C1 + C2) T (zip_with app x1 x2).
Proof.
  intros H1 H2. split.
  - unfold cat2. rewrite decide_True; [done|]. split.
    + destruct H1 as [-> _], H2 as [-> _]. done.
    + pose proof (has_shape_concat _ _ _ _ H1) as Hr1.
      pose proof (has_shape_concat _ _ _ _ H2) as Hr2.
      pose proof (proj2 (Forall_app _ _ _) (conj Hr1 Hr2)) as Hr.
      unfold same_last_size.
      destruct (concat x1 ++ concat x2) as [|r rows]; [done|].
      apply Forall_cons in Hr as [Hr Hrows].
      eapply Forall_impl; [exact Hrows|]. intros r' Hr'. cbn in *. congruence.
  - apply has_shape_lookup in H1 as [Hl1 H1], H2 as [Hl2 H2].
    apply has_shape_lookup. split.
    { rewrite length_zip_with. lia. }
    intros b m Hm. apply lookup_zip_with_Some in Hm as (m1 & m2 & -> & Hm1 & Hm2).
    destruct (H1 _ _ Hm1) as [Hc1 Hr1], (H2 _ _ Hm2) as [Hc2 Hr2].
    split; [rewrite length_app; lia|].
    intros c r Hr. apply lookup_app_Some in Hr as [Hr|[_ Hr]]; eauto.
Qed.
End Concat.

(** C5. Two feature tensors of shapes [[B, C1, T]] and [[B, C2, T]] are
    concatenated, in the order of the list, into a tensor of shape
    [[B, C1 + C2, T]]: its first [C1] channels are the channels of the
    first tensor and the remaining [C2] channels are the channels of the
    second, over the whole time axis of every batch entry; without a
    downsample factor this is what [EnsembleHubert.forward] returns. *)
Theorem ensemble_concat_order {A : Type} `{Scalar A}
    (B C1 C2 T : nat) (x1 x2 : tensor3 A) :
  has_shape B C1 T x1 -> has_shape B C2 T x2 ->
  exists y, cat_dim1 [x1; x2] = Some y /\
    EnsembleHubert.forward [x1; x2] None = Some y /\
    has_shape B (C1 + C2) T y /\
    (forall b c, (c < C1)%nat -> slice y b c = slice x1 b c) /\
    (forall b c, (C1 <= c)%nat -> slice y b c = slice x2 b (c - C1)).
Proof.
  intros H1 H2.
  destruct (cat2_spec B C1 C2 T x1 x2 H1 H2) as [Hcat Hshape].
  exists (zip_with app x1 x2).
  assert (cat_dim1 [x1; x2] = Some (zip_with app x1 x2)) as Hcat' by exact Hcat.
  split; [done|]. split; [unfold EnsembleHubert.forward; by rewrite Hcat'|].
  split; [done|].
  apply has_shape_lookup in H1 as [Hl1 H1], H2 as [Hl2 H2].
  assert (forall b, is_Some (x1 !! b) <-> is_Some (x2 !! b)) as Hboth.
  { intros b. rewrite !lookup_lt_is_Some. lia. }
  split.
  - intros b c Hc. unfold slice. rewrite lookup_zip_with.
    destruct (x1 !! b) as [m1|] eqn:Hm1; [|done]. cbn.
    destruct (proj1 (Hboth b)) as [m2 Hm2]; [by rewrite Hm1|].
    rewrite Hm2. cbn. apply lookup_app_l. by destruct (H1 _ _ Hm1) as [-> _].
  - intros b c Hc. unfold slice. rewrite lookup_zip_with.
    destruct (x2 !! b) as [m2|] eqn:Hm2.
    + destruct (proj2 (Hboth b)) as [m1 Hm1]; [by rewrite Hm2|].
      rewrite Hm1. cbn. destruct (H1 _ _ Hm1) as [<- _].
      by apply lookup_app_r.
    + by destruct (x1 !! b).
Qed.

(** ** Temporal resampling *)

Section Resample.
Context {A : Type} `{Scalar A}.

Lemma length_upsample_linear1d_row (size : Z) (r : list A) :
  length (upsample_linear1d_row size r) = Z.to_nat size.
Proof. unfold upsample_linear1d_row. by rewrite length_fmap, length_seq. Qed.

Lemma has_shape_fmap2 {X Y} (f : list X -> list Y) (n0 n1 n2 n : nat)
    (x : tensor3 X) :
  has_shape n0 n1 n2 x -> (forall r, length (f r) = n) ->
  has_shape n0 n1 n (fmap2 f x).
Proof.
  intros [Hn0 Hx] Hf. unfold fmap2. split; [by rewrite length_fmap|].
  apply Forall_fmap. eapply Forall_impl; [exact Hx|].
  intros m [Hn1 Hm]. cbn. split; [by rewrite length_fmap|].
  apply Forall_fmap. eapply Forall_impl; [exact Hm|]. intros r _. apply Hf.
Qed.

Lemma interpolate_Some (x : tensor3 A) (size : Z) :
  (0 < shape2 x)%nat -> 0 < size ->
  interpolate x size = Some (fmap2 (upsample_linear1d_row size) x).
Proof. intros Hx Hs. unfold interpolate. rewrite decide_True; [done|lia]. Qed.

Lemma interpolate_None (x : tensor3 A) (size : Z) :
  size <= 0 -> interpolate x size = None.
Proof. intros Hs. unfold interpolate. rewrite decide_False; [done|lia]. Qed.

(** A row resampled to its own length is blended at weights 1 and 0. *)
Lemma upsample_linear1d_row_same (r : list A) :
  Forall blend_exact r ->
  upsample_linear1d_row (Z.of_nat (length r)) r = r.
Proof.
  intros Hr. apply list_eq. intros i. unfold upsample_linear1d_row.
  rewrite list_lookup_fmap, Nat2Z.id.
  destruct (decide (i < length r)%nat) as [Hi|Hi].
  - rewrite lookup_seq_lt by done. cbn.
    unfold compute_source_index_and_lambda. rewrite decide_True by done.
    unfold at_index. rewrite Nat2Z.id.
    destruct (lookup_lt_is_Some_2 r i Hi) as [v Hv]. rewrite Hv. cbn.
    f_equal. rewrite Forall_forall in Hr. apply Hr.
    by eapply list_elem_of_lookup_2.
  - rewrite lookup_seq_ge by lia. cbn. symmetry. apply lookup_ge_None. lia.
Qed.

Lemma fmap2_id_on {X} (f : list X -> list X) (x : tensor3 X) :
  (forall b c r, slice x b c = Some r -> f r = r) -> fmap2 f x = x.
Proof.
  intros Hf. unfold fmap2. apply list_eq. intros b.
  rewrite list_lookup_fmap. destruct (x !! b) as [m|] eqn:Hm; [|done]. cbn.
  f_equal. apply list_eq. intros c. rewrite list_lookup_fmap.
  destruct (m !! c) as [r|] eqn:Hr; [|done]. cbn. f_equal.
  apply (Hf b c). unfold slice. by rewrite Hm.
Qed.
End Resample.

(** C4, as the code has it.  For a tensor of shape [[B, C, T]] and a
    downsample factor [d > 0]: without a factor the tensor is returned
    as it is; when [d <= T] the result has time length [T // d]; when
    [T < d] the target length is 0, which the interpolation rejects, and
    no tensor is returned; and for [d = 1] the result is the input
    itself, provided its values are returned unchanged by a blend at
    weights 1 and 0, as every finite value is, in binary32 and in exact
    arithmetic alike. *)
Theorem resample_spec {A : Type} `{Scalar A}
    (B C T : nat) (d : Z) (x : tensor3 A) :
  has_shape B C T x -> (0 < B)%nat -> (0 < C)%nat -> 0 < d ->
  ChineseHubert.forward x None = Some x /\
  (d <= Z.of_nat T ->
   exists y, ChineseHubert.forward x (Some d) = Some y /\
             has_shape B C (Z.to_nat (Z.of_nat T `div` d)) y) /\
  (Z.of_nat T < d -> ChineseHubert.forward x (Some d) = None) /\
  ((0 < T)%nat ->
   (forall b c r, slice x b c = Some r -> Forall blend_exact r) ->
   ChineseHubert.forward x (Some 1) = Some x).
Proof.
  intros Hx HB HC Hd.
  pose proof (shape2_has_shape _ _ _ _ Hx HB HC) as HT.
  split; [done|]. split; [|split].
  - intros HdT. unfold ChineseHubert.forward, resample.
    rewrite decide_False by lia. rewrite HT.
    assert (0 < Z.of_nat T `div` d) by (apply Z.div_str_pos; lia).
    rewrite interpolate_Some by lia.
    eexists. split; [done|].
    apply (has_shape_fmap2 _ _ _ _ _ _ Hx). intros r.
    apply length_upsample_linear1d_row.
  - intros HTd. unfold ChineseHubert.forward, resample.
    rewrite decide_False by lia. rewrite HT.
    rewrite Z.div_small by lia. by apply interpolate_None.
  - intros HT0 Hblend. unfold ChineseHubert.forward, resample.
    rewrite decide_False by lia.
    rewrite HT, Z.div_1_r. rewrite interpolate_Some by lia.
    f_equal. apply fmap2_id_on. intros b c r Hr.
    destruct (slice_shape _ _ _ _ _ _ _ Hx Hr) as (_ & _ & <-).
    apply upsample_linear1d_row_same. by eapply Hblend.
Qed.

(** ** Maps that commute with the scatter and the sum *)

Section Invariance.
Context {A : Type} `{Scalar A}.
Variable f : A -> A.
Hypothesis f_zero : f s_zero = s_zero.
Hypothesis f_add : forall a b, f (s_add a b) = s_add (f a) (f b).

Lemma scatter_row_fmap (idx : list nat) (vals self : list A) :
  scatter_row (f <$> self) idx (f <$> vals)
  = (fun r : list A => f <$> r) <$> scatter_row self idx vals.
Proof.
  revert vals self. induction idx as [|i idx IH]; intros vals self; [done|].
  destruct vals as [|v vals]; [done|]. cbn [scatter_row fmap list_fmap].
  rewrite length_fmap.
  destruct (decide (i < length self)%nat); [|done].
  rewrite <- IH. by rewrite list_fmap_insert.
Qed.

Lemma foldl_add_fmap (a : A) (ys : list A) :
  foldl s_add (f a) (f <$> ys) = f (foldl s_add a ys).
Proof.
  revert a. induction ys as [|y ys IH]; intros a; [done|].
  cbn. by rewrite <- f_add, IH.
Qed.

Lemma sum_row_fmap (ys : list A) : sum_row (f <$> ys) = f (sum_row ys).
Proof. unfold sum_row. by rewrite <- foldl_add_fmap, f_zero. Qed.

Lemma mapM_fmap_compose {X Y W} (g : Y -> option W) (h : X -> Y) (l : list X) :
  mapM g (h <$> l) = mapM (fun a => g (h a)) l.
Proof. induction l as [|a l IH]; [done|]. cbn. by rewrite IH. Qed.
End Invariance.

(** ** Facts of exact arithmetic *)

Module ExactFacts.
Import Exact ExactOrder.

Local Open Scope Qc_scope.

Lemma blend_exact_fin (q : Qc) : blend_exact (EFin q).
Proof. unfold blend_exact. cbn. f_equal. ring. Qed.

Lemma Forall_blend_exact_fin (r : list ereal) :
  Forall finite r -> Forall blend_exact r.
Proof.
  intros Hr. eapply Forall_impl; [exact Hr|].
  intros v [q ->]. apply blend_exact_fin.
Qed.

Lemma Qc_bool_eq (b1 b2 : bool) : (b1 = true <-> b2 = true) -> b1 = b2.
Proof. destruct b1, b2; intuition congruence. Qed.

Lemma Qc_ltb_mult_pos (q a b : Qc) :
  0 < q -> Qc_ltb (q * a) (q * b) = Qc_ltb a b.
Proof.
  intros Hq. apply Qc_bool_eq. rewrite !Qc_ltb_lt.
  symmetry. by apply Qcmult_lt_mono_pos_l.
Qed.

Lemma Qc_eqb_mult_pos (q a : Qc) : 0 < q -> Qc_eqb (q * a) 0 = Qc_eqb a 0.
Proof.
  intros Hq. apply Qc_bool_eq. rewrite !Qc_eqb_eq. split.
  - intros Hqa. apply Qcmult_integral in Hqa as [->|Ha]; [|done].
    by apply Qclt_not_eq in Hq.
  - intros ->. ring.
Qed.

Lemma Qc_ltb_mult_pos_0 (q a : Qc) : 0 < q -> Qc_ltb (q * a) 0 = Qc_ltb a 0.
Proof.
  intros Hq. rewrite <- (Qc_ltb_mult_pos q a 0 Hq). f_equal. ring.
Qed.

(** Multiplication by a positive rational. *)
Lemma mul_pos (q : Qc) (x : ereal) :
  0 < q ->
  mul (EFin q) x
  = match x with EFin a => EFin (q * a) | EInf s => EInf s | ENaN => ENaN end.
Proof.
  intros Hq. destruct x as [a|s|]; cbn; [done| |done].
  assert (Qc_eqb q 0 = false) as ->.
  { apply Qc_eqb_neq. intros ->. by apply Qclt_not_eq in Hq. }
  assert (Qc_ltb q 0 = false) as ->.
  { apply Qc_ltb_ge. by apply Qclt_le_weak. }
  done.
Qed.

Section Scaling.
Variable q : Qc.
Hypothesis q_pos : 0 < q.

Lemma scale_gt (a b : ereal) :
  topk_gt (mul (EFin q) a) (mul (EFin q) b) = topk_gt a b.
Proof.
  rewrite !mul_pos by done. destruct a as [a|[]|], b as [b|[]|]; try done.
  unfold topk_gt. cbn. by apply Qc_ltb_mult_pos.
Qed.

Lemma scale_zero : mul (EFin q) (EFin 0) = EFin 0.
Proof. cbn. f_equal. ring. Qed.

Lemma scale_add (a b : ereal) :
  mul (EFin q) (add a b) = add (mul (EFin q) a) (mul (EFin q) b).
Proof.
  destruct a as [a|[]|], b as [b|[]|]; rewrite ?mul_pos by done; cbn;
    rewrite ?mul_pos by done; try done.
  f_equal. ring.
Qed.

Lemma scale_div (a b : ereal) :
  div (mul (EFin q) a) (mul (EFin q) b) = div a b.
Proof.
  rewrite !mul_pos by done. destruct a as [a|sa|], b as [b|sb|]; try done; cbn.
  - rewrite !Qc_eqb_mult_pos, Qc_ltb_mult_pos_0 by done.
    destruct (Qc_eqb b 0) eqn:Hb; [done|]. f_equal.
    apply Qc_eqb_neq in Hb. field. split; [done|].
    intros ->. by apply Qclt_not_eq in q_pos.
  - by rewrite Qc_ltb_mult_pos_0.
Qed.
End Scaling.
End ExactFacts.

(** ** Invariance under positive scaling *)

Section ScalingOn.
Context {A : Type} `{Scalar A}.
Variable f : A -> A.

Lemma insert_desc_fmap_on (P : A -> Prop) (p : nat * A) (l : list (nat * A)) :
  (forall a b, P a -> P b -> topk_gt (f a) (f b) = topk_gt a b) ->
  P p.2 -> Forall (fun q => P q.2) l ->
  insert_desc (prod_map id f p) (prod_map id f <$> l)
  = prod_map id f <$> insert_desc p l.
Proof.
  intros Hgt Hp. induction 1 as [|q l Hq Hl IH]; [done|]. cbn.
  change (prod_map id f q).2 with (f q.2).
  change (prod_map id f p).2 with (f p.2). rewrite Hgt by done.
  destruct (topk_gt q.2 p.2); [|done]. cbn. by rewrite <- IH.
Qed.

Lemma foldr_insert_desc_fmap_on (P : A -> Prop) (l : list (nat * A)) :
  (forall a b, P a -> P b -> topk_gt (f a) (f b) = topk_gt a b) ->
  Forall (fun q => P q.2) l ->
  foldr insert_desc [] (prod_map id f <$> l)
  = prod_map id f <$> foldr insert_desc [] l.
Proof.
  intros Hgt. induction 1 as [|p l Hp Hl IH]; [done|]. cbn. rewrite IH.
  apply (insert_desc_fmap_on P); [done..|].
  by rewrite foldr_insert_desc_perm.
Qed.

Lemma sort_desc_fmap_on (xs : list A) :
  (forall a b, a ∈ xs -> b ∈ xs -> topk_gt (f a) (f b) = topk_gt a b) ->
  sort_desc (f <$> xs) = prod_map id f <$> sort_desc xs.
Proof.
  intros Hgt. unfold sort_desc.
  rewrite <- (foldr_insert_desc_fmap_on (fun a => a ∈ xs)); [|done|].
  - f_equal. rewrite imap_fmap, fmap_imap. by apply imap_ext.
  - apply Forall_forall. intros [i a] Hi.
    apply elem_of_lookup_imap in Hi as (j & b & [= -> ->] & Hj). cbn.
    by eapply list_elem_of_lookup_2.
Qed.

Lemma select_row_fmap_on (k : Z) (xs : list A) :
  (forall a b, a ∈ xs -> b ∈ xs -> topk_gt (f a) (f b) = topk_gt a b) ->
  f s_zero = s_zero ->
  select_row k (f <$> xs) = (fun r : list A => f <$> r) <$> select_row k xs.
Proof.
  intros Hgt Hzero. unfold select_row, topk_row. rewrite length_fmap.
  destruct (decide (0 <= k <= Z.of_nat (length xs))); [|done].
  cbn [mbind option_bind].
  rewrite sort_desc_fmap_on, <- fmap_take, <- !list_fmap_compose by done.
  rewrite <- (scatter_row_fmap f). f_equal.
  - rewrite <- list_fmap_compose. apply list_fmap_ext. intros ? ? _. cbn.
    by rewrite Hzero.
  - by rewrite <- list_fmap_compose.
Qed.

(** The indices selected on the scaled slice are those selected on the
    slice. *)
Lemma topk_indices_fmap_on (k : nat) (xs : list A) :
  (forall a b, a ∈ xs -> b ∈ xs -> topk_gt (f a) (f b) = topk_gt a b) ->
  (take k (sort_desc (f <$> xs))).*1 = (take k (sort_desc xs)).*1.
Proof.
  intros Hgt. rewrite sort_desc_fmap_on, <- fmap_take by done.
  rewrite <- list_fmap_compose. by apply list_fmap_ext.
Qed.

Lemma gate_row_fmap_on (k : Z) (xs : list A) :
  (forall a b, a ∈ xs -> b ∈ xs -> topk_gt (f a) (f b) = topk_gt a b) ->
  f s_zero = s_zero ->
  (forall ys, select_row k xs = Some ys ->
     sum_row (f <$> ys) = f (sum_row ys) /\
     Forall (fun y => s_div (f y) (f (sum_row ys)) = s_div y (sum_row ys)) ys) ->
  gate_row k (f <$> xs) = gate_row k xs.
Proof.
  intros Hgt Hzero Hnorm. unfold gate_row. rewrite select_row_fmap_on by done.
  destruct (select_row k xs) as [ys|] eqn:Hys; [|done]. cbn -[sum_row].
  destruct (Hnorm ys eq_refl) as [Hsum Hdiv]. f_equal.
  rewrite Hsum, <- list_fmap_compose.
  apply Forall_fmap_ext. eapply Forall_impl; [exact Hdiv|]. by intros y Hy.
Qed.

Lemma distinct_values_fmap_on (xs : list A) :
  (forall a b, a ∈ xs -> b ∈ xs -> topk_gt (f a) (f b) = topk_gt a b) ->
  distinct_values xs -> distinct_values (f <$> xs).
Proof.
  intros Hgt Hd i j a' b' Hij Ha' Hb' [Ht1 Ht2].
  rewrite list_lookup_fmap in Ha', Hb'.
  destruct (xs !! i) as [a|] eqn:Ha; [|done].
  destruct (xs !! j) as [b|] eqn:Hb; [|done].
  injection Ha' as <-. injection Hb' as <-.
  apply list_elem_of_lookup_2 in Ha as Hain, Hb as Hbin.
  rewrite Hgt in Ht1, Ht2 by done. by apply (Hd i j a b).
Qed.
End ScalingOn.

Section Determined.
Context {A : Type} `{Scalar A} `{!TopkOrder A}.

(** On a slice of pairwise distinct values every selection that
    [torch.topk] may return takes the same channels. *)
Lemma topk_admissible_unique (xs : list A) (k : Z) (i1 i2 : list nat) :
  distinct_values xs ->
  topk_admissible xs k i1 -> topk_admissible xs k i2 -> i1 ≡ₚ i2.
Proof.
  intros Hd H1 H2.
  assert (forall j1 j2, topk_admissible xs k j1 -> topk_admissible xs k j2 ->
            forall c, c ∈ j1 -> c ∈ j2) as Hincl.
  { intros j1 j2 Hj1 Hj2 c Hc.
    destruct (decide (c ∈ j2)) as [|Hout]; [done|]. exfalso.
    assert (c < length xs)%nat as Hlt.
    { destruct Hj1 as (_ & _ & Hb & _). rewrite Forall_forall in Hb. auto. }
    destruct (lookup_lt_is_Some_2 xs c Hlt) as [a Ha].
    destruct (topk_admissible_exchange xs k j1 j2 c a Hj1 Hj2 Hc Hout Ha)
      as (c' & a' & Hin & Hnin & Ha' & Htie).
    apply (Hd c c' a a'); [|done..]. by intros ->. }
  apply NoDup_Permutation; [apply H1|apply H2|].
  intros c. split; by apply Hincl.
Qed.
End Determined.

(** In exact arithmetic multiplication by a positive rational is exact
    on every slice. *)
Lemma exact_scales_exactly (q : Qc) (k : Z) (xs : list ereal) :
  (0 < q)%Qc -> scales_exactly (EFin q) k xs.
Proof.
  intros Hq. split; [|split].
  - intros a b _ _. apply (ExactFacts.scale_gt q Hq).
  - apply ExactFacts.scale_zero.
  - intros ys _. split.
    + apply (sum_row_fmap (s_mul (EFin q))).
      * apply ExactFacts.scale_zero.
      * apply (ExactFacts.scale_add q Hq).
    + apply Forall_forall. intros y _. apply (ExactFacts.scale_div q Hq).
Qed.

(** C9, as the code has it.  For a tensor of shape [[B, T, C]] whose
    channel slices hold pairwise distinct values, a gate size
    [0 <= k <= C] and a scalar [c > 0]: if on every slice multiplication
    by [c] is exact (it keeps the order of the values and the zero,
    multiplies the sum of the scattered slice by [c] and leaves the
    quotients by that sum unchanged), then gating the scaled tensor
    gives exactly what gating the tensor gives; and on every slice the
    same channels are selected, whichever selections [torch.topk] returns
    for the slice and for the scaled slice. *)
Theorem topk_gate_scale_invariant {A : Type} `{Scalar A} `{!TopkOrder A}
    (B T C : nat) (k : Z) (c : A) (x : tensor3 A) :
  has_shape B T C x -> 0 <= k <= Z.of_nat C ->
  s_ltb s_zero c = true ->
  (forall b t xs, slice x b t = Some xs ->
     distinct_values xs /\ scales_exactly c k xs) ->
  topk_gate (scale c x) k = topk_gate x k /\
  forall b t xs i i', slice x b t = Some xs ->
    topk_admissible xs k i -> topk_admissible (s_mul c <$> xs) k i' ->
    i ≡ₚ i'.
Proof.
  intros Hx Hk _ Hexact. split.
  - unfold scale. rewrite !topk_gate_slicewise. unfold fmap3, fmap2.
    rewrite mapM_fmap_compose. apply Forall_mapM_ext, Forall_lookup.
    intros b m Hm. cbn. rewrite mapM_fmap_compose.
    apply Forall_mapM_ext, Forall_lookup. intros t xs Hxs.
    destruct (Hexact b t xs) as [_ (Hgt & Hzero & Hnorm)].
    { unfold slice. by rewrite Hm. }
    by apply gate_row_fmap_on.
  - intros b t xs i i' Hxs Hi Hi'.
    destruct (Hexact b t xs Hxs) as [Hd (Hgt & _ & _)].
    destruct (slice_shape _ _ _ _ _ _ _ Hx Hxs) as (_ & _ & Hlen). subst C.
    pose proof (topk_row_admissible k xs Hk) as Hmodel.
    assert (0 <= k <= Z.of_nat (length (s_mul c <$> xs))) as Hk'
      by (by rewrite length_fmap).
    pose proof (topk_row_admissible k (s_mul c <$> xs) Hk') as Hmodel'.
    rewrite (topk_indices_fmap_on (s_mul c)) in Hmodel' by done.
    rewrite (topk_admissible_unique xs k i _ Hd Hi Hmodel).
    symmetry. apply (topk_admissible_unique (s_mul c <$> xs) k); [|done..].
    by apply distinct_values_fmap_on.
Qed.

(** ** Counting the retained channels *)

Section Counting.
Context {A : Type} `{Scalar A}.

(** A property of zero and of every input value holds of every value of
    the scattered slice. *)
Lemma select_row_Forall (P : A -> Prop) (k : Z) (xs ys : list A) :
  P s_zero -> Forall P xs -> select_row k xs = Some ys -> Forall P ys.
Proof.
  intros Hzero Hxs Hys.
  destruct (decide (0 <= k <= Z.of_nat (length xs))) as [Hk|Hk];
    [|by rewrite select_row_None in Hys].
  destruct (select_row_spec k xs Hk) as (ys' & Hsome & Hlen & Hkept & Hrest).
  rewrite Hys in Hsome. injection Hsome as <-.
  apply Forall_lookup. intros c v Hv.
  assert (c < length xs)%nat as Hc by (rewrite <- Hlen; by eapply lookup_lt_Some).
  destruct (decide (c ∈ (take (Z.to_nat k) (sort_desc xs)).*1)) as [Hin|Hout].
  - apply list_elem_of_fmap in Hin as ([c0 w] & -> & Hin). cbn in *.
    rewrite (Hkept _ _ Hin) in Hv. injection Hv as <-.
    apply elem_of_take_sort_desc in Hin.
    rewrite Forall_forall in Hxs. apply Hxs.
    by eapply list_elem_of_lookup_2.
  - rewrite (Hrest c Hc Hout) in Hv. by injection Hv as <-.
Qed.

(** When a property holds exactly at the positions listed in [idxs],
    it holds of as many entries as [idxs] has members. *)
Lemma length_filter_indexed {X} (P : X -> Prop) `{!forall v, Decision (P v)}
    (ys : list X) (idxs : list nat) :
  NoDup idxs ->
  (forall i, i ∈ idxs -> (i < length ys)%nat) ->
  (forall c w, ys !! c = Some w -> (P w <-> c ∈ idxs)) ->
  length (filter P ys) = length idxs.
Proof.
  revert idxs. induction ys as [|y ys IH] using rev_ind; intros idxs Hnd Hlt HP.
  { destruct idxs as [|i idxs]; [done|].
    assert (i < length (@nil X))%nat as Hi by (apply Hlt; left).
    cbn in Hi. lia. }
  rewrite filter_app, length_app.
  assert ((ys ++ [y]) !! length ys = Some y) as Hy by apply list_lookup_middle, eq_refl.
  destruct (decide (length ys ∈ idxs)) as [Hin|Hout].
  - destruct (proj1 (elem_of_Permutation _ _) Hin) as [idxs' Hperm].
    rewrite Hperm in Hnd. apply NoDup_cons in Hnd as [Hni Hnd].
    rewrite (IH idxs'); [|done| |].
    + rewrite Hperm. cbn.
      rewrite decide_True by (by apply (HP _ _ Hy)). cbn. lia.
    + intros i Hi. assert (i ≠ length ys) by (by intros ->).
      assert (i < length (ys ++ [y]))%nat as Hi'.
      { apply Hlt. rewrite Hperm. by right. }
      rewrite length_app in Hi'. cbn in Hi'. lia.
    + intros c w Hc. pose proof (lookup_lt_Some _ _ _ Hc) as Hclt.
      rewrite (HP c w) by (by apply lookup_app_l_Some).
      rewrite Hperm, elem_of_cons. split; [|by right].
      intros [->|?]; [lia|done].
  - rewrite (IH idxs); [|done| |].
    + cbn. rewrite decide_False; [cbn; lia|].
      intros HPy. apply Hout. by apply (HP _ _ Hy).
    + intros i Hi. assert (i ≠ length ys) by (by intros ->).
      specialize (Hlt i Hi). rewrite length_app in Hlt. cbn in Hlt. lia.
    + intros c w Hc. apply HP. by apply lookup_app_l_Some.
Qed.

(** Lines 60-61 leave exactly [k] non-zero channels on a slice whose
    selected values are all non-zero. *)
Lemma count_nonzero_select_row (k : Z) (xs ys : list A) :
  s_nonzero (s_zero : A) = false ->
  0 <= k <= Z.of_nat (length xs) ->
  select_row k xs = Some ys ->
  Forall (fun a => s_nonzero a = true) (take (Z.to_nat k) (sort_desc xs)).*2 ->
  count_nonzero ys = Z.to_nat k.
Proof.
  intros Hz Hk Hys Hnz.
  destruct (select_row_spec k xs Hk) as (ys' & Hsome & Hlen & Hkept & Hrest).
  rewrite Hys in Hsome. injection Hsome as <-.
  set (top := take (Z.to_nat k) (sort_desc xs)) in *.
  unfold count_nonzero.
  rewrite (length_filter_indexed _ ys top.*1).
  - rewrite length_fmap. unfold top. rewrite length_take_le; [done|].
    rewrite length_sort_desc. lia.
  - apply NoDup_take_fst.
  - intros i Hi. apply list_elem_of_fmap in Hi as ([i0 w] & -> & Hi).
    rewrite Hlen. eapply lookup_lt_Some. by eapply elem_of_take_sort_desc.
  - intros c w Hc. split.
    + intros Hw. destruct (decide (c ∈ top.*1)) as [|Hout]; [done|].
      rewrite Hrest in Hc; [|rewrite <- Hlen; by eapply lookup_lt_Some|done].
      injection Hc as <-. congruence.
    + intros Hin. apply list_elem_of_fmap in Hin as ([c0 w'] & -> & Hin).
      cbn in Hc. rewrite (Hkept _ _ Hin) in Hc. injection Hc as <-.
      rewrite Forall_forall in Hnz. apply Hnz.
      apply list_elem_of_fmap. by exists (c0, w').
Qed.
End Counting.

(** ** Division by a zero sum *)

Module B32Facts.
Import B32.

Lemma div_by_zero_non_finite (x d : spec_float) :
  is_zero d = true -> non_finite (SFdiv prec emax x d) = true.
Proof. destruct d; [|done..]. intros _. by destruct x. Qed.

Lemma zero_div_zero (x d : spec_float) :
  is_zero x = true -> is_zero d = true -> SFdiv prec emax x d = S754_nan.
Proof. by destruct x, d. Qed.

Lemma add_zeros (x y : spec_float) :
  is_zero x = true -> is_zero y = true -> is_zero (SFadd prec emax x y) = true.
Proof. destruct x as [[]| | |], y as [[]| | |]; done. Qed.

Lemma foldl_add_zeros (z : spec_float) (l : list spec_float) :
  is_zero z = true -> Forall (fun v => is_zero v = true) l ->
  is_zero (foldl (SFadd prec emax) z l) = true.
Proof.
  revert z. induction l as [|v l IH]; intros z Hz Hl; [done|].
  apply Forall_cons in Hl as [Hv Hl]. cbn. apply IH; [|done].
  by apply add_zeros.
Qed.

Lemma sum_row_zeros (l : list spec_float) :
  Forall (fun v => is_zero v = true) l -> is_zero (sum_row l) = true.
Proof. by apply foldl_add_zeros. Qed.

Lemma fmap_div_zeros (d : spec_float) (l : list spec_float) :
  is_zero d = true -> Forall (fun v => is_zero v = true) l ->
  (fun y => SFdiv prec emax y d) <$> l = replicate (length l) S754_nan.
Proof.
  intros Hd. induction 1 as [|v l Hv _ IH]; [done|].
  cbn. by rewrite IH, zero_div_zero.
Qed.

(** Selecting within a slice of zeros leaves a slice of zeros. *)
Lemma select_row_zeros (k : Z) (xs ys : list spec_float) :
  Forall (fun v => is_zero v = true) xs ->
  select_row k xs = Some ys ->
  Forall (fun v => is_zero v = true) ys.
Proof. by apply select_row_Forall. Qed.
(** Multiplication by 1 is exact on every valid finite value: the
    product mantissa [2^23 * m] is shifted back by 23 places without a
    remainder. *)
Lemma shr_fexp_mul_one (m : positive) (e : Z) :
  fexp prec emax (Z.pos (digits2_pos m) + e) = e ->
  shr_fexp prec emax (Z.pos (8388608 * m)) (-23 + e) loc_Exact
  = ({| shr_m := Z.pos m; shr_r := false; shr_s := false |}, e).
Proof.
  intros Hc. unfold shr_fexp.
  change (8388608 * m)%positive
    with (m~0~0~0~0~0~0~0~0~0~0~0~0~0~0~0~0~0~0~0~0~0~0~0)%positive.
  cbn [Zdigits2 digits2_pos].
  match goal with
  | |- context [fexp prec emax ?a] =>
      replace a with (Z.pos (digits2_pos m) + e) by lia
  end.
  rewrite Hc.
  replace (e - (-23 + e)) with 23 by lia.
  cbn. f_equal. lia.
Qed.

Lemma shr_fexp_canonical (m : positive) (e : Z) :
  fexp prec emax (Z.pos (digits2_pos m) + e) = e ->
  shr_fexp prec emax (Z.pos m) e loc_Exact
  = ({| shr_m := Z.pos m; shr_r := false; shr_s := false |}, e).
Proof.
  intros Hc. unfold shr_fexp. cbn [Zdigits2]. by rewrite Hc, Z.sub_diag.
Qed.

Lemma mul_one_finite (s : bool) (m : positive) (e : Z) :
  bounded prec emax m e = true ->
  SFmul prec emax (of_Z 1) (S754_finite s m e) = S754_finite s m e.
Proof.
  intros Hb. unfold bounded in Hb. apply andb_true_iff in Hb as [Hc He].
  unfold canonical_mantissa in Hc. apply Z.eqb_eq in Hc.
  change (of_Z 1) with (S754_finite false 8388608 (-23)).
  cbn [SFmul xorb]. unfold binary_round_aux.
  rewrite (shr_fexp_mul_one m e Hc).
  cbn [shr_m loc_of_shr_record round_nearest_even].
  rewrite (shr_fexp_canonical m e Hc). cbn [shr_m]. by rewrite He.
Qed.

(** Every finite binary32 value comes back unchanged from a blend at
    weights 1 and 0. *)
Lemma blend_exact_finite (v : spec_float) :
  valid_binary prec emax v = true -> non_finite v = false -> blend_exact v.
Proof.
  unfold blend_exact. destruct v as [s| | |s m e]; try done; intros Hv _.
  - by destruct s.
  - cbn [s_mul s_add s_one s_zero scalar]. rewrite mul_one_finite by done.
    by destruct s.
Qed.

Lemma Forall_blend_exact_finite (r : list spec_float) :
  Forall (fun v => valid_binary prec emax v = true /\ non_finite v = false) r ->
  Forall blend_exact r.
Proof.
  intros Hr. eapply Forall_impl; [exact Hr|].
  intros v [Hv Hf]. by apply blend_exact_finite.
Qed.
End B32Facts.

(** ** Scaling by a power of two in binary32 *)

Module B32Scaling.
Import B32 B32Facts.

(** Multiplication by [2^d] moves the exponent of a value that stays
    representable. *)
Lemma mul_pow2 (d : Z) (x : spec_float) :
  scalable d x = true -> SFmul prec emax (pow2 d) x = shift d x.
Proof.
  destruct x as [[]|[]| |s m e]; try done. cbn [scalable shift].
  intros Hb. apply andb_true_iff in Hb as [_ Hb].
  unfold bounded in Hb. apply andb_true_iff in Hb as [Hc He].
  unfold canonical_mantissa in Hc. apply Z.eqb_eq in Hc.
  unfold pow2. cbn [SFmul xorb]. unfold binary_round_aux.
  replace (d - 23 + e) with (-23 + (e + d)) by lia.
  rewrite (shr_fexp_mul_one m (e + d) Hc).
  cbn [shr_m loc_of_shr_record round_nearest_even].
  rewrite (shr_fexp_canonical m (e + d) Hc). cbn [shr_m]. by rewrite He.
Qed.

Lemma compare_shift (d : Z) (a b : spec_float) :
  SFcompare (shift d a) (shift d b) = SFcompare a b.
Proof.
  destruct a as [?|?| |sa ma ea], b as [?|?| |sb mb eb]; try done.
  cbn. by rewrite !(Z.add_comm _ d), Z.add_compare_mono_l.
Qed.

Lemma topk_gt_shift (d : Z) (a b : spec_float) :
  topk_gt (shift d a) (shift d b) = topk_gt a b.
Proof.
  unfold topk_gt. cbn [s_isnan s_ltb scalar]. unfold SFltb.
  rewrite compare_shift. by destruct a, b.
Qed.

(** A common shift of the exponents cancels in the quotient. *)
Lemma div_shift (d : Z) (a b : spec_float) :
  SFdiv prec emax (shift d a) (shift d b) = SFdiv prec emax a b.
Proof.
  destruct a as [?|?| |sa ma ea], b as [?|?| |sb mb eb]; try done.
  cbn [shift SFdiv]. unfold SFdiv_core_binary.
  replace (Zdigits2 (Z.pos ma) + (ea + d) - (Zdigits2 (Z.pos mb) + (eb + d)))
    with (Zdigits2 (Z.pos ma) + ea - (Zdigits2 (Z.pos mb) + eb)) by lia.
  replace (ea + d - (eb + d)) with (ea - eb) by lia. done.
Qed.

(** For a power of two that keeps the values of a slice and the sum of
    the scattered slice representable, multiplication is exact on the
    slice as soon as it is exact on the sum. *)
Lemma pow2_scales_exactly (d k : Z) (xs : list spec_float) :
  Forall (fun v => scalable d v = true) xs ->
  (forall ys, select_row k xs = Some ys ->
     scalable d (sum_row ys) = true /\
     sum_row (SFmul prec emax (pow2 d) <$> ys)
     = SFmul prec emax (pow2 d) (sum_row ys)) ->
  scales_exactly (pow2 d) k xs.
Proof.
  intros Hxs Hsum. rewrite Forall_forall in Hxs. split; [|split].
  - intros a b Ha Hb. cbn [s_mul scalar].
    rewrite !mul_pow2 by auto. apply topk_gt_shift.
  - done.
  - intros ys Hys. destruct (Hsum ys Hys) as [Hs Heq]. split; [exact Heq|].
    assert (Forall (fun v => scalable d v = true) ys) as Hyv.
    { eapply (select_row_Forall (fun v => scalable d v = true));
        [done| |exact Hys]. by apply Forall_forall. }
    eapply Forall_impl; [exact Hyv|]. intros y Hy. cbn [s_mul s_div scalar].
    rewrite !mul_pow2 by done. apply div_shift.
Qed.
Lemma digits2_pos_iter_xO (m d : positive) :
  digits2_pos (Pos.iter xO m d) = (digits2_pos m + d)%positive.
Proof.
  induction d as [|d IH] using Pos.peano_ind.
  - cbn. by rewrite Pos.add_1_r.
  - rewrite Pos.iter_succ. cbn. rewrite IH. by rewrite Pos.add_succ_r.
Qed.

Lemma fst_shl_align_shift (m : positive) (e e' d : Z) :
  fst (shl_align m (e + d) (e' + d)) = fst (shl_align m e e').
Proof.
  unfold shl_align. replace (e' + d - (e + d)) with (e' - e) by lia.
  by destruct (e' - e).
Qed.

Lemma shr_shift (mrs : shr_record) (e n d : Z) :
  shr mrs (e + d) n = ((shr mrs e n).1, (shr mrs e n).2 + d).
Proof. destruct n; cbn; f_equal; lia. Qed.

Lemma shr_nonpos (mrs : shr_record) (e n : Z) :
  n <= 0 -> shr mrs e n = (mrs, e).
Proof. destruct n; [done|lia|done]. Qed.

Lemma shr_snd (mrs : shr_record) (e n : Z) :
  (shr mrs e n).2 = if decide (0 < n) then e + n else e.
Proof. destruct n; cbn; repeat case_decide; lia. Qed.

(** Rounding commutes with a shift of the exponent when the value is
    clear of the subnormal range before and after, and the result of
    overflow. *)
Lemma binary_round_aux_shift (s : bool) (mx ex d : Z) (lx : location) :
  fexp prec emax (Zdigits2 mx + (ex + d))
  = fexp prec emax (Zdigits2 mx + ex) + d ->
  match binary_round_aux prec emax s mx ex lx with
  | S754_finite _ _ e => e + d <= emax - prec
  | S754_infinity _ => False
  | _ => True
  end ->
  binary_round_aux prec emax s mx (ex + d) lx
  = shift d (binary_round_aux prec emax s mx ex lx).
Proof.
  intros Hf. unfold binary_round_aux, shr_fexp. rewrite Hf.
  replace (fexp prec emax (Zdigits2 mx + ex) + d - (ex + d))
    with (fexp prec emax (Zdigits2 mx + ex) - ex) by lia.
  rewrite shr_shift.
  pose proof (shr_snd (shr_record_of_loc mx lx) ex
                (fexp prec emax (Zdigits2 mx + ex) - ex)) as He.
  destruct (shr (shr_record_of_loc mx lx) ex
              (fexp prec emax (Zdigits2 mx + ex) - ex)) as [mrs' e'].
  cbn [fst snd] in *.
  set (m1 := round_nearest_even (shr_m mrs') (loc_of_shr_record mrs')).
  assert (emin prec emax <= e' /\ emin prec emax <= e' + d) as [Hlo Hlo'].
  { assert (emin prec emax <= fexp prec emax (Zdigits2 mx + ex)) as H1
      by apply Z.le_max_r.
    assert (emin prec emax <= fexp prec emax (Zdigits2 mx + (ex + d))) as H2
      by apply Z.le_max_r.
    case_decide; lia. }
  assert (shr (shr_record_of_loc m1 loc_Exact) (e' + d)
            (fexp prec emax (Zdigits2 m1 + (e' + d)) - (e' + d))
          = ((shr (shr_record_of_loc m1 loc_Exact) e'
                (fexp prec emax (Zdigits2 m1 + e') - e')).1,
             (shr (shr_record_of_loc m1 loc_Exact) e'
                (fexp prec emax (Zdigits2 m1 + e') - e')).2 + d)) as ->.
  { destruct (decide (0 < Zdigits2 m1 - prec)) as [Hd|Hd].
    - replace (fexp prec emax (Zdigits2 m1 + (e' + d)) - (e' + d))
        with (fexp prec emax (Zdigits2 m1 + e') - e')
        by (unfold fexp; lia).
      apply shr_shift.
    - rewrite !shr_nonpos by (unfold fexp; lia). done. }
  destruct (shr (shr_record_of_loc m1 loc_Exact) e'
              (fexp prec emax (Zdigits2 m1 + e') - e')) as [mrs'' e''].
  cbn [fst snd]. destruct (shr_m mrs'') as [|m|m]; [done| |done].
  destruct (e'' <=? emax - prec) eqn:Hle; [|done].
  intros Hr. cbn [shift].
  by rewrite (proj2 (Z.leb_le _ _) Hr).
Qed.
Lemma binary_round_shift (s : bool) (m : positive) (ez d : Z) :
  -126 <= ez -> -126 <= ez + d ->
  match binary_round prec emax s m ez with
  | S754_finite _ _ e => e + d <= emax - prec
  | S754_infinity _ => False
  | _ => True
  end ->
  binary_round prec emax s m (ez + d) = shift d (binary_round prec emax s m ez).
Proof.
  intros Hlo Hlo'. unfold binary_round.
  pose proof (Pos2Z.is_pos (digits2_pos m)) as Hpos.
  assert (fexp prec emax (Z.pos (digits2_pos m) + ez)
          = Z.pos (digits2_pos m) + ez - 24) as HF
    by (unfold fexp, emin, prec, emax; lia).
  assert (fexp prec emax (Z.pos (digits2_pos m) + (ez + d))
          = fexp prec emax (Z.pos (digits2_pos m) + ez) + d) as HF'
    by (unfold fexp, emin, prec, emax; lia).
  rewrite HF'. unfold shl_align.
  replace (fexp prec emax (Z.pos (digits2_pos m) + ez) + d - (ez + d))
    with (fexp prec emax (Z.pos (digits2_pos m) + ez) - ez) by lia.
  destruct (fexp prec emax (Z.pos (digits2_pos m) + ez) - ez) as [|p|p] eqn:Hs.
  - by apply binary_round_aux_shift.
  - by apply binary_round_aux_shift.
  - apply binary_round_aux_shift. cbn [Zdigits2].
    rewrite digits2_pos_iter_xO, Pos2Z.inj_add.
    unfold fexp, emin, prec, emax in *. lia.
Qed.

(** Addition commutes with a shift of the exponents. *)
Lemma add_shift (d : Z) (a b : spec_float) :
  add_exact d a b = true ->
  SFadd prec emax (shift d a) (shift d b) = shift d (SFadd prec emax a b).
Proof.
  destruct a as [[]|[]| |sa ma ea], b as [[]|[]| |sb mb eb]; try done.
  unfold add_exact. intros Hok.
  apply andb_true_iff in Hok as [Hok Hres].
  apply andb_true_iff in Hok as [Hlo Hlo'].
  apply Z.leb_le in Hlo, Hlo'.
  cbn [shift SFadd] in *. rewrite Z.add_min_distr_r, !fst_shl_align_shift.
  unfold binary_normalize in *.
  destruct (cond_Zopp sa (Z.pos (shl_align ma ea (ea `min` eb)).1) +
            cond_Zopp sb (Z.pos (shl_align mb eb (ea `min` eb)).1))
    as [|m|m]; [done| |].
  - apply binary_round_shift; [done..|].
    destruct (binary_round prec emax false m (ea `min` eb)); try done.
    by apply Z.leb_le.
  - apply binary_round_shift; [done..|].
    destruct (binary_round prec emax true m (ea `min` eb)); try done.
    by apply Z.leb_le.
Qed.

Lemma foldl_add_shift (d : Z) (z : spec_float) (ys : list spec_float) :
  sum_exact d z ys = true ->
  foldl (SFadd prec emax) (shift d z) (shift d <$> ys)
  = shift d (foldl (SFadd prec emax) z ys).
Proof.
  revert z. induction ys as [|y ys IH]; intros z Hok; [done|].
  cbn in Hok. apply andb_true_iff in Hok as [Hstep Hrest].
  cbn [foldl fmap list_fmap]. rewrite add_shift by done. by apply IH.
Qed.

(** The sum of a slice scales with the slice when all of its partial
    sums are exact. *)
Lemma sum_row_shift (d : Z) (ys : list spec_float) :
  sum_exact d (S754_zero false) ys = true ->
  sum_row (shift d <$> ys) = shift d (sum_row ys).
Proof. intros Hok. by apply (foldl_add_shift d (S754_zero false)). Qed.

(** For a power of two, multiplication is exact on a slice whose values
    and whose sums stay representable: conditions on exponents alone. *)
Lemma pow2_scales_exactly_range (d k : Z) (xs : list spec_float) :
  Forall (fun v => scalable d v = true) xs ->
  (forall ys, select_row k xs = Some ys ->
     sum_exact d (S754_zero false) ys = true /\
     scalable d (sum_row ys) = true) ->
  scales_exactly (pow2 d) k xs.
Proof.
  intros Hxs Hsum. apply pow2_scales_exactly; [done|].
  intros ys Hys. destruct (Hsum ys Hys) as [Hex Hs]. split; [done|].
  assert (Forall (fun v => scalable d v = true) ys) as Hyv.
  { by eapply (select_row_Forall (fun v => scalable d v = true)). }
  rewrite (mul_pow2 d (sum_row ys) Hs), <- sum_row_shift by done. f_equal.
  apply Forall_fmap_ext. eapply Forall_impl; [exact Hyv|].
  intros y Hy. by apply mul_pow2.
Qed.
End B32Scaling.

(** C6. For a binary32 tensor of shape [[B, T, C]] and [0 <= k <= C]
    the gate raises no error and returns a tensor, which [_forward]
    hands on transposed.  At every position where the scattered slice
    sums to zero (of either sign), all [C] values of the returned slice
    are NaN or infinite; in particular, where every input channel is a
    zero, the returned slice consists of NaN only. *)
Theorem gate_zero_sum_non_finite
    (B T C : nat) (k : Z) (x : tensor3 spec_float) :
  has_shape B T C x -> 0 <= k <= Z.of_nat C ->
  exists sel y,
    gate_select x k = Some sel /\ topk_gate x k = Some y /\
    ChineseHubertSoft._forward x k = Some (transpose12 y) /\
    forall b t xs, slice x b t = Some xs ->
      exists ys out,
        slice sel b t = Some ys /\ slice y b t = Some out /\ length out = C /\
        (B32.is_zero (sum_row ys) = true ->
         Forall (fun v => B32.non_finite v = true) out) /\
        (Forall (fun v => B32.is_zero v = true) xs ->
         out = replicate C S754_nan).
Proof.
  intros Hx Hk.
  destruct (gate_select_shape B T C k x Hx Hk) as (sel & Hsel & _).
  destruct (topk_gate_shape B T C k x Hx Hk) as (y & Hy & _).
  exists sel, y. split; [done|]. split; [done|].
  split; [unfold ChineseHubertSoft._forward; by rewrite Hy|].
  intros b t xs Hxs.
  destruct (slice_shape _ _ _ _ _ _ _ Hx Hxs) as (_ & _ & Hlen). subst C.
  rewrite gate_select_slicewise in Hsel. rewrite topk_gate_slicewise in Hy.
  pose proof (mapM2_slice _ _ _ b t Hsel) as Hys.
  pose proof (mapM2_slice _ _ _ b t Hy) as Hout.
  rewrite Hxs in Hys, Hout. cbn in Hys, Hout.
  destruct (gate_row_Some k xs Hk) as (ys & Hsome & Hlys & Hgate).
  rewrite Hsome in Hys. rewrite Hgate in Hout.
  eexists ys, _. split; [done|]. split; [done|].
  split; [by rewrite length_fmap|]. split.
  - intros Hsum. apply Forall_fmap, Forall_true. intros v. cbn.
    by apply B32Facts.div_by_zero_non_finite.
  - intros Hzeros.
    pose proof (B32Facts.select_row_zeros k xs ys Hzeros Hsome) as Hys0.
    rewrite <- Hlys.
    apply (B32Facts.fmap_div_zeros _ _ (B32Facts.sum_row_zeros ys Hys0) Hys0).
Qed.

(** ** Sparsity and normalisation in exact arithmetic *)

Module ExactGate.
Import Exact ExactOrder ExactFacts.

Local Open Scope Qc_scope.

Lemma finite_list (l : list ereal) :
  Forall finite l -> exists qs, l = EFin <$> qs.
Proof.
  induction 1 as [|v l [q ->] _ [qs ->]]; [by exists []|].
  by exists (q :: qs).
Qed.

Lemma foldl_add_fin (a : Qc) (ps : list Qc) :
  foldl add (EFin a) (EFin <$> ps) = EFin (foldl Qcplus a ps).
Proof. revert a. induction ps as [|p ps IH]; intros a; [done|]. cbn. apply IH. Qed.

Lemma sum_row_fin (ps : list Qc) :
  sum_row (EFin <$> ps) = EFin (foldl Qcplus 0 ps).
Proof. apply foldl_add_fin. Qed.

Lemma foldl_Qcplus_div (a s : Qc) (ps : list Qc) :
  foldl Qcplus (a / s) ((fun p => p / s) <$> ps) = foldl Qcplus a ps / s.
Proof.
  revert a. induction ps as [|p ps IH]; intros a; [done|].
  cbn. rewrite <- IH. f_equal. unfold Qcdiv. ring.
Qed.

Lemma nonzero_fin (p : Qc) : s_nonzero (EFin p) = true <-> p <> 0.
Proof.
  unfold s_nonzero. cbn. rewrite negb_true_iff. apply Qc_eqb_neq.
Qed.

Lemma div_fin (p s : Qc) : s <> 0 -> div (EFin p) (EFin s) = EFin (p / s).
Proof. intros Hs. cbn. by rewrite (proj2 (Qc_eqb_neq s 0) Hs). Qed.

Lemma Qcdiv_nonzero (p s : Qc) : s <> 0 -> p / s <> 0 <-> p <> 0.
Proof.
  intros Hs. split; intros Hp Hz; apply Hp.
  - subst p. unfold Qcdiv. ring.
  - rewrite <- (Qcmult_div_r p s Hs), Hz. ring.
Qed.

Lemma count_nonzero_div (s : Qc) (ps : list Qc) :
  s <> 0 ->
  count_nonzero (EFin <$> ((fun p => p / s) <$> ps))
  = count_nonzero (EFin <$> ps).
Proof.
  intros Hs. unfold count_nonzero.
  induction ps as [|p ps IH]; [done|]. cbn [fmap list_fmap].
  rewrite !filter_cons.
  destruct (decide (s_nonzero (EFin p) = true)) as [Hp|Hp].
  - rewrite decide_True; [cbn; by rewrite IH|].
    apply nonzero_fin, Qcdiv_nonzero; [done|]. by apply nonzero_fin.
  - rewrite decide_False; [done|].
    rewrite nonzero_fin, Qcdiv_nonzero by done. by rewrite <- nonzero_fin.
Qed.

(** Leaving the zero entries out does not change the sum. *)
Lemma foldl_add_filter_nonzero (a : Qc) (ps : list Qc) :
  foldl add (EFin a) (filter (fun v => s_nonzero v = true) (EFin <$> ps))
  = foldl add (EFin a) (EFin <$> ps).
Proof.
  revert a. induction ps as [|p ps IH]; intros a; [done|].
  cbn [fmap list_fmap]. rewrite filter_cons.
  destruct (decide (s_nonzero (EFin p) = true)) as [Hp|Hp]; cbn.
  - apply IH.
  - rewrite IH. do 2 f_equal.
    destruct (decide (p = 0)) as [->|Hne]; [ring|].
    by apply nonzero_fin in Hne.
Qed.

(** The gate on one finite slice whose selected values are non-zero and
    whose scattered slice has a non-zero sum. *)
Lemma gate_row_normalised (k : Z) (xs ys : list ereal) :
  (0 <= k <= Z.of_nat (length xs))%Z ->
  Forall finite xs ->
  select_row k xs = Some ys ->
  Forall (fun a => s_nonzero a = true) (take (Z.to_nat k) (sort_desc xs)).*2 ->
  s_nonzero (sum_row ys) = true ->
  exists out, gate_row k xs = Some out /\
    count_nonzero out = Z.to_nat k /\
    sum_row out = EFin 1 /\
    sum_row (filter (fun v => s_nonzero v = true) out) = EFin 1.
Proof.
  intros Hk Hfin Hys Hnz Hsum.
  pose proof (count_nonzero_select_row k xs ys eq_refl Hk Hys Hnz) as Hcount.
  assert (Forall finite ys) as Hfys.
  { eapply select_row_Forall; [|exact Hfin|exact Hys]. by exists 0. }
  destruct (finite_list ys Hfys) as [ps ->].
  rewrite sum_row_fin in Hsum. apply nonzero_fin in Hsum.
  set (s := foldl Qcplus 0 ps) in *.
  exists (EFin <$> ((fun p => p / s) <$> ps)).
  assert (sum_row (EFin <$> ((fun p => p / s) <$> ps)) = EFin 1) as Hone.
  { rewrite sum_row_fin. f_equal.
    replace (0 : Qc) with (0 / s) at 1 by (unfold Qcdiv; ring).
    rewrite foldl_Qcplus_div. fold s. by field. }
  split; [|split; [|split; [done|]]].
  - unfold gate_row. rewrite Hys. cbn -[sum_row]. f_equal.
    rewrite sum_row_fin. fold s. rewrite <- !list_fmap_compose.
    apply list_fmap_ext. intros ? p _. cbn -[s]. by apply div_fin.
  - by rewrite count_nonzero_div.
  - rewrite <- Hone. exact (foldl_add_filter_nonzero 0 _).
Qed.
End ExactGate.

(** ** Sparsity in binary32 *)

Section CountingMore.
Context {X : Type}.

(** When a property holds only at positions listed in [idxs], it holds
    of at most as many entries as [idxs] has members. *)
Lemma length_filter_indexed_le (P : X -> Prop) `{!forall v, Decision (P v)}
    (ys : list X) (idxs : list nat) :
  NoDup idxs ->
  (forall c w, ys !! c = Some w -> P w -> c ∈ idxs) ->
  (length (filter P ys) <= length idxs)%nat.
Proof.
  revert idxs. induction ys as [|y ys IH] using rev_ind; intros idxs Hnd HP.
  { cbn. lia. }
  rewrite filter_app, length_app.
  assert ((ys ++ [y]) !! length ys = Some y) as Hy
    by apply list_lookup_middle, eq_refl.
  cbn. destruct (decide (P y)) as [HPy|HPy]; cbn.
  - pose proof (HP _ _ Hy HPy) as Hin.
    destruct (proj1 (elem_of_Permutation _ _) Hin) as [idxs' Hperm].
    rewrite Hperm in Hnd. apply NoDup_cons in Hnd as [Hni Hnd].
    rewrite Hperm. cbn.
    assert (length (filter P ys) <= length idxs')%nat; [|lia].
    apply IH; [done|]. intros c w Hc HPw.
    pose proof (lookup_lt_Some _ _ _ Hc) as Hclt.
    pose proof (HP c w (lookup_app_l_Some _ _ _ _ Hc) HPw) as Hcin.
    rewrite Hperm in Hcin. apply elem_of_cons in Hcin as [->|?]; [lia|done].
  - assert (length (filter P ys) <= length idxs)%nat; [|lia].
    apply IH; [done|]. intros c w Hc HPw.
    by apply (HP c w (lookup_app_l_Some _ _ _ _ Hc)).
Qed.
End CountingMore.

Module B32Sparsity.
Import B32.

Lemma zero_div_number (d : spec_float) :
  is_zero d = false -> is_nan d = false ->
  is_zero (SFdiv prec emax (S754_zero false) d) = true.
Proof. by destruct d. Qed.

(** The gate on one slice whose scattered sum is a number other than
    zero. *)
Lemma gate_row_sparse (k : Z) (xs ys : list spec_float) :
  0 <= k <= Z.of_nat (length xs) ->
  select_row k xs = Some ys ->
  is_zero (sum_row ys) = false -> is_nan (sum_row ys) = false ->
  exists out, gate_row k xs = Some out /\
    (forall c, (c < length xs)%nat ->
       c ∉ (take (Z.to_nat k) (sort_desc xs)).*1 ->
       exists w, out !! c = Some w /\ is_zero w = true) /\
    (count_nonzero out <= Z.to_nat k)%nat.
Proof.
  intros Hk Hys Hz Hn.
  destruct (select_row_spec k xs Hk) as (ys' & Hsome & Hlen & Hkept & Hrest).
  rewrite Hys in Hsome. injection Hsome as <-.
  set (top := take (Z.to_nat k) (sort_desc xs)) in *.
  exists ((fun y => SFdiv prec emax y (sum_row ys)) <$> ys).
  assert (forall c, (c < length xs)%nat -> c ∉ top.*1 ->
            exists w, ((fun y => SFdiv prec emax y (sum_row ys)) <$> ys) !! c
                      = Some w /\ is_zero w = true) as Hout.
  { intros c Hc Hni. rewrite list_lookup_fmap, (Hrest c Hc Hni). cbn.
    eexists. split; [done|]. by apply zero_div_number. }
  split; [unfold gate_row; by rewrite Hys|]. split; [exact Hout|].
  unfold count_nonzero.
  replace (Z.to_nat k) with (length top.*1).
  2:{ rewrite length_fmap. unfold top. rewrite length_take_le; [done|].
      rewrite length_sort_desc. lia. }
  apply length_filter_indexed_le; [apply NoDup_take_fst|].
  intros c w Hc Hw.
  destruct (decide (c ∈ top.*1)) as [|Hni]; [done|]. exfalso.
  assert (c < length xs)%nat as Hlt.
  { apply lookup_lt_Some in Hc. rewrite length_fmap in Hc. lia. }
  destruct (Hout c Hlt Hni) as (w' & Hw' & Hzero).
  rewrite Hc in Hw'. injection Hw' as <-.
  destruct w; done.
Qed.

(** Selecting nothing leaves the zeros. *)
Lemma select_row_none_selected (xs : list spec_float) :
  select_row 0 xs = Some (replicate (length xs) (S754_zero false)).
Proof.
  destruct (select_row_spec 0 xs) as (ys & Hys & Hlen & _ & Hrest); [lia|].
  rewrite Hys. f_equal. apply list_eq. intros c.
  destruct (decide (c < length xs)%nat) as [Hc|Hc].
  - rewrite (Hrest c Hc) by (cbn; apply not_elem_of_nil).
    symmetry. by apply lookup_replicate_2.
  - rewrite (proj2 (lookup_ge_None ys c)) by lia.
    symmetry. apply lookup_ge_None. rewrite length_replicate. lia.
Qed.

(** The gate on one slice whose scattered sum is a number other than
    zero: the selected channels hold the quotients of their input values
    by the sum, and the non-zero channels are the selected channels
    whose quotient is not zero. *)
Lemma gate_row_count (k : Z) (xs ys : list spec_float) :
  0 <= k <= Z.of_nat (length xs) ->
  select_row k xs = Some ys ->
  exists out, gate_row k xs = Some out /\
    (forall c a, c ∈ (take (Z.to_nat k) (sort_desc xs)).*1 ->
       xs !! c = Some a ->
       out !! c = Some (SFdiv prec emax a (sum_row ys))) /\
    (is_zero (sum_row ys) = false -> is_nan (sum_row ys) = false ->
     (count_nonzero out = Z.to_nat k <->
      forall c a, c ∈ (take (Z.to_nat k) (sort_desc xs)).*1 ->
        xs !! c = Some a ->
        s_nonzero (SFdiv prec emax a (sum_row ys)) = true)).
Proof.
  intros Hk Hys.
  destruct (select_row_spec k xs Hk) as (ys' & Hsome & Hlen & Hkept & Hrest).
  rewrite Hys in Hsome. injection Hsome as <-.
  set (top := take (Z.to_nat k) (sort_desc xs)) in *.
  set (s := sum_row ys).
  exists ((fun y => SFdiv prec emax y s) <$> ys).
  assert (forall c a, c ∈ top.*1 -> xs !! c = Some a ->
            ((fun y => SFdiv prec emax y s) <$> ys) !! c
            = Some (SFdiv prec emax a s)) as Hsel.
  { intros c a Hc Ha.
    apply list_elem_of_fmap in Hc as ([c0 w] & -> & Hc). cbn in Ha.
    pose proof (elem_of_take_sort_desc _ _ _ _ Hc) as Hw.
    cbn in Hw. rewrite Ha in Hw. injection Hw as <-.
    cbn [fst]. by rewrite list_lookup_fmap, (Hkept _ _ Hc). }
  split; [unfold gate_row; by rewrite Hys|]. split; [exact Hsel|].
  intros Hz Hn.
  assert (length top.*1 = Z.to_nat k) as Hltop.
  { rewrite length_fmap. unfold top. rewrite length_take_le; [done|].
    rewrite length_sort_desc. lia. }
  assert (forall c w, ((fun y => SFdiv prec emax y s) <$> ys) !! c = Some w ->
            s_nonzero w = true -> c ∈ top.*1) as Hin.
  { intros c w Hc Hw.
    destruct (decide (c ∈ top.*1)) as [|Hni]; [done|]. exfalso.
    assert (c < length xs)%nat as Hlt.
    { apply lookup_lt_Some in Hc. rewrite length_fmap in Hc. lia. }
    rewrite list_lookup_fmap, (Hrest c Hlt Hni) in Hc.
    cbn [fmap option_fmap option_map] in Hc. injection Hc as <-.
    clearbody s. by destruct s as [|[]| |[] ? ?]. }
  unfold count_nonzero. split.
  - intros Hcount c a Hc Ha.
    destruct (s_nonzero (SFdiv prec emax a s)) eqn:Hq; [done|]. exfalso.
    destruct (proj1 (elem_of_Permutation _ _) Hc) as [idxs' Hperm].
    pose proof (NoDup_take_fst xs (Z.to_nat k)) as Hnd. fold top in Hnd.
    rewrite Hperm in Hnd. apply NoDup_cons in Hnd as [Hni Hnd].
    assert (length (filter (fun v => s_nonzero v = true)
                      ((fun y => SFdiv prec emax y s) <$> ys))
            <= length idxs')%nat as Hle.
    { apply length_filter_indexed_le; [done|]. intros c0 w Hc0 Hw.
      pose proof (Hin c0 w Hc0 Hw) as Hc0in. rewrite Hperm in Hc0in.
      apply elem_of_cons in Hc0in as [->|?]; [|done]. exfalso.
      rewrite (Hsel c a Hc Ha) in Hc0. injection Hc0 as <-. congruence. }
    rewrite <- Hltop, Hperm in Hcount. cbn in Hcount. lia.
  - intros Hall. rewrite <- Hltop.
    apply length_filter_indexed.
    + apply NoDup_take_fst.
    + intros c Hc. rewrite length_fmap, Hlen.
      apply list_elem_of_fmap in Hc as ([c0 w] & -> & Hc).
      eapply lookup_lt_Some. by eapply elem_of_take_sort_desc.
    + intros c w Hc. split; [by apply Hin|]. intros Hcin.
      assert (c < length xs)%nat as Hlt.
      { apply lookup_lt_Some in Hc. rewrite length_fmap in Hc. lia. }
      destruct (lookup_lt_is_Some_2 xs c Hlt) as [a Ha].
      rewrite (Hsel c a Hcin Ha) in Hc. injection Hc as <-.
      by apply (Hall c a).
Qed.
End B32Sparsity.

(** ** Shape, sparsity and normalisation *)

(** C1, as the code has it.  For a binary32 tensor of shape
    [[B, T, C]] and [0 <= k <= C] the gate returns a tensor of the same
    shape.  At every position, each of the [k] selected channels holds
    its input value divided by the sum of the scattered slice; and where
    that sum is a number other than zero, every other channel is a zero,
    at most [k] channels are non-zero, and exactly [k] are non-zero if
    and only if none of the [k] quotients is zero. *)
Theorem gate_shape_sparsity_normalisation
    (B T C : nat) (k : Z) (x : tensor3 spec_float) :
  has_shape B T C x -> 0 <= k <= Z.of_nat C ->
  exists vals inds sel y,
    topk x k = Some (vals, inds) /\ gate_select x k = Some sel /\
    topk_gate x k = Some y /\ has_shape B T C y /\
    forall b t xs, slice x b t = Some xs ->
      exists i ys out,
        slice inds b t = Some i /\ slice sel b t = Some ys /\
        slice y b t = Some out /\
        length i = Z.to_nat k /\ NoDup i /\
        (forall c a, c ∈ i -> xs !! c = Some a ->
           out !! c = Some (SFdiv B32.prec B32.emax a (sum_row ys))) /\
        (B32.is_zero (sum_row ys) = false ->
         B32.is_nan (sum_row ys) = false ->
         (forall c, (c < C)%nat -> c ∉ i ->
            exists w, out !! c = Some w /\ B32.is_zero w = true) /\
         (count_nonzero out <= Z.to_nat k)%nat /\
         (count_nonzero out = Z.to_nat k <->
          forall c a, c ∈ i -> xs !! c = Some a ->
            s_nonzero (SFdiv B32.prec B32.emax a (sum_row ys)) = true)).
Proof.
  intros Hx Hk.
  destruct (topk_shape B T C k x Hx Hk) as (vals & inds & Htopk).
  destruct (gate_select_shape B T C k x Hx Hk) as (sel & Hsel & _).
  destruct (topk_gate_shape B T C k x Hx Hk) as (y & Hy & Hshape).
  exists vals, inds, sel, y. do 4 (split; [done|]).
  intros b t xs Hxs.
  destruct (slice_shape _ _ _ _ _ _ _ Hx Hxs) as (_ & _ & Hlen). subst C.
  destruct (topk_slice x k vals inds b t Htopk) as [_ Hi].
  rewrite Hxs in Hi. cbn in Hi. rewrite topk_row_Some in Hi by done. cbn in Hi.
  rewrite gate_select_slicewise in Hsel.
  pose proof (mapM2_slice _ _ _ b t Hsel) as Hys.
  rewrite Hxs in Hys. cbn in Hys.
  rewrite topk_gate_slicewise in Hy.
  pose proof (mapM2_slice _ _ _ b t Hy) as Hout. rewrite Hxs in Hout.
  cbn in Hout.
  destruct (gate_row_Some k xs Hk) as (ys & Hsome & _ & Hgate).
  rewrite Hsome in Hys. rewrite Hgate in Hout.
  destruct (B32Sparsity.gate_row_count k xs ys Hk Hsome)
    as (out & Hout' & Hquot & Hcount).
  rewrite Hgate in Hout'. injection Hout' as <-.
  eexists _, ys, _. do 3 (split; [done|]).
  split.
  { rewrite length_fmap, length_take_le; [done|].
    rewrite length_sort_desc. lia. }
  split; [apply NoDup_take_fst|]. split; [exact Hquot|].
  intros Hz Hn.
  destruct (B32Sparsity.gate_row_sparse k xs ys Hk Hsome Hz Hn)
    as (out & Hout' & Hzero & Hle).
  rewrite Hgate in Hout'. injection Hout' as <-.
  split; [exact Hzero|]. split; [exact Hle|]. by apply Hcount.
Qed.

(** ** The scenarios of the specification *)

(** C2. With gate size 2 on the frame [[0.1, 0.5, 0.3, 0.9]], [topk]
    returns the values 0.9 and 0.5 with the indices 3 and 1.  In exact
    arithmetic the gate returns [[0, 5/14, 0, 9/14]].  In binary32 it
    returns [[0, a, 0, b]] with exact zeros, where [a] and [b] lie within
    [10^-7] of 5/14 and 9/14, and so within half a unit of the fourth
    decimal of 0.3571 and 0.6429. *)
Theorem gate_scenario :
  topk gate_input_b32 2
  = Some ([[[B32.of_ratio 9 10; B32.of_ratio 5 10]]], [[[3%nat; 1%nat]]]) /\
  topk_gate gate_input_b32 2
  = Some [[[S754_zero false; S754_finite false 11983726 (-25);
            S754_zero false; S754_finite false 10785353 (-24)]]] /\
  within (1 # 10000000) (B32.to_Q (S754_finite false 11983726 (-25)))
    (5 # 14) /\
  within (1 # 10000000) (B32.to_Q (S754_finite false 10785353 (-24)))
    (9 # 14) /\
  within (5 # 100000) (B32.to_Q (S754_finite false 11983726 (-25)))
    (3571 # 10000) /\
  within (5 # 100000) (B32.to_Q (S754_finite false 10785353 (-24)))
    (6429 # 10000) /\
  topk gate_input_exact 2
  = Some ([[[Exact.of_ratio 9 10; Exact.of_ratio 5 10]]], [[[3%nat; 1%nat]]]) /\
  topk_gate gate_input_exact 2
  = Some [[[EFin 0; Exact.of_ratio 5 14; EFin 0; Exact.of_ratio 9 14]]].
Proof.
  split; [by vm_compute|]. split; [by vm_compute|].
  do 4 (split; [by vm_compute|]).
  split; exact_tensor_eq.
Qed.

(** C8. Resampling the ramp [[0, 1, ..., 7]] with downsample factor 2
    gives a tensor of shape [[1, 1, 4]] holding 0.5, 2.5, 4.5 and 6.5,
    exactly so both in binary32 and in exact arithmetic. *)
Theorem resample_scenario :
  has_shape 1 1 8 ramp_b32 /\
  ChineseHubert.forward ramp_b32 (Some 2)
  = Some [[[B32.of_ratio 1 2; B32.of_ratio 5 2; B32.of_ratio 9 2;
            B32.of_ratio 13 2]]] /\
  has_shape 1 1 4
    [[[B32.of_ratio 1 2; B32.of_ratio 5 2; B32.of_ratio 9 2;
       B32.of_ratio 13 2]]] /\
  ChineseHubert.forward ramp_exact (Some 2)
  = Some [[[Exact.of_ratio 1 2; Exact.of_ratio 5 2; Exact.of_ratio 9 2;
            Exact.of_ratio 13 2]]].
Proof.
  split; [by repeat constructor|]. split; [by vm_compute|].
  split; [by repeat constructor|]. exact_tensor_eq.
Qed.

(** ** Where the claims and the code part *)

(** Against C1 as stated.  On the frame [[1, 0, 0]], which is not all
    zero, the gate of size 2 selects the values 1 and 0 and returns
    [[1, 0, 0]]: one non-zero channel, not two; binary32 and exact
    arithmetic agree.  On the binary32 frame [[3e38, 3e38, 1]], which is
    not all zero either, the two selected values sum to infinity and the
    gate of size 2 returns [[0, 0, 0]]: no channel is non-zero, and the
    non-zero channels do not sum to 1. *)
Lemma gate_sparsity_counterexample :
  has_shape 1 1 3 sparse_input_b32 /\
  0 <= 2 <= Z.of_nat 3 /\
  s_nonzero (B32.of_Z 1) = true /\
  topk_gate sparse_input_b32 2
  = Some [[[B32.of_Z 1; B32.of_Z 0; B32.of_Z 0]]] /\
  count_nonzero [B32.of_Z 1; B32.of_Z 0; B32.of_Z 0] = 1%nat /\
  1%nat <> Z.to_nat 2 /\
  topk_gate sparse_input_exact 2
  = Some [[[Exact.of_Z 1; Exact.of_Z 0; Exact.of_Z 0]]] /\
  has_shape 1 1 3 overflow_input_b32 /\
  s_nonzero (B32.of_Z 300000000000000000000000000000000000000) = true /\
  gate_select overflow_input_b32 2
  = Some [[[B32.of_Z 300000000000000000000000000000000000000;
            B32.of_Z 300000000000000000000000000000000000000;
            S754_zero false]]] /\
  sum_row [B32.of_Z 300000000000000000000000000000000000000;
           B32.of_Z 300000000000000000000000000000000000000;
           S754_zero false]
  = S754_infinity false /\
  topk_gate overflow_input_b32 2
  = Some [[[S754_zero false; S754_zero false; S754_zero false]]] /\
  count_nonzero [S754_zero false; S754_zero false; S754_zero false] = 0%nat /\
  0%nat <> Z.to_nat 2 /\
  sum_row (filter (fun v => s_nonzero v = true)
             [S754_zero false; S754_zero false; S754_zero false])
  = S754_zero false /\
  SFeqb (S754_zero false) (B32.of_Z 1) = false.
Proof.
  split; [by repeat constructor|]. split; [lia|].
  do 4 (split; [by vm_compute|]). split; [exact_tensor_eq|].
  split; [by repeat constructor|]. do 7 (split; [by vm_compute|]).
  by vm_compute.
Qed.

(** The channels 0 and 2 of the frame [[2, 1, 1, 1]] are two of its
    largest values, the larger first. *)
Lemma boundary_tie_admissible :
  topk_admissible
    [B32.of_Z 2; B32.of_Z 1; B32.of_Z 1; B32.of_Z 1] 2 [0%nat; 2%nat].
Proof.
  split; [reflexivity|]. split.
  { apply NoDup_cons. split; [|apply NoDup_singleton].
    intros Hin. apply list_elem_of_singleton in Hin. discriminate. }
  split; [repeat constructor|]. split.
  { repeat constructor. intros a a' [= <-] [= <-]. reflexivity. }
  intros c c' a a' Hc Hc' Ha Ha'.
  assert (a' = B32.of_Z 1) as ->.
  { destruct c' as [|[|[|[|c']]]]; cbn in Ha'.
    - exfalso. apply Hc'. left.
    - by injection Ha'.
    - exfalso. apply Hc'. right. left.
    - by injection Ha'.
    - discriminate. }
  apply elem_of_cons in Hc as [->|Hc]; [by injection Ha as <-|].
  apply list_elem_of_singleton in Hc as ->. by injection Ha as <-.
Qed.

(** Against C7 as stated: on the frame [[2, 1, 1, 1]] with gate size 2
    the channels 1 and 2 hold equal values at the selection boundary,
    and the channels 0 and 2 are a selection [torch.topk] may return;
    scattering it retains channel 2, the higher index, and leaves
    channel 1 at zero. *)
Lemma tie_order_counterexample :
  slice boundary_tie_b32 0 0
  = Some [B32.of_Z 2; B32.of_Z 1; B32.of_Z 1; B32.of_Z 1] /\
  topk_tie (B32.of_Z 1) (B32.of_Z 1) /\
  topk_admissible
    [B32.of_Z 2; B32.of_Z 1; B32.of_Z 1; B32.of_Z 1] 2 [0%nat; 2%nat] /\
  (1 < 2)%nat /\ 2%nat ∈ [0%nat; 2%nat] /\ (1%nat ∉ [0%nat; 2%nat]) /\
  scatter_row (replicate 4 (S754_zero false)) [0%nat; 2%nat]
    [B32.of_Z 2; B32.of_Z 1]
  = Some [B32.of_Z 2; S754_zero false; B32.of_Z 1; S754_zero false].
Proof.
  split; [reflexivity|]. split; [by split|]. split.
  { exact boundary_tie_admissible. }
  split; [lia|]. split; [right; left|]. split; [|reflexivity].
  intros Hin. apply elem_of_cons in Hin as [Hin|Hin]; [discriminate|].
  apply elem_of_cons in Hin as [Hin|Hin]; [discriminate|].
  by apply elem_of_nil in Hin.
Qed.

(** Against C4 as stated: a tensor of time length 1 resampled with
    factor 2 has target length [1 // 2 = 0], which the interpolation
    rejects, so no tensor of time length 0 is returned. *)
Lemma resample_counterexample :
  has_shape 1 1 1 [[[B32.of_Z 1]]] /\
  0 < 2 /\
  Z.of_nat 1 `div` 2 = 0 /\
  ChineseHubert.forward [[[B32.of_Z 1]]] (Some 2) = None /\
  ChineseHubert.forward [[[Exact.of_Z 1]]] (Some 2) = None.
Proof.
  split; [by repeat constructor|]. split; [lia|]. by vm_compute.
Qed.

(** Why the identity at factor 1 is stated for values that a blend at
    weights 1 and 0 returns unchanged: in the kernel modelled here an
    infinite value comes back as NaN, since [0 * inf] is NaN. *)
Example resample_identity_needs_finite :
  ChineseHubert.forward [[[S754_infinity false]]] (Some 1)
  = Some [[[S754_nan]]].
Proof. by vm_compute. Qed.

(** Against C9 as stated: the binary32 frame [[1, 2^24, 0.5]] has
    pairwise distinct values and its multiple by 3 is exact, yet with
    gate size 2 the two gated frames differ: [1 + 2^24] rounds down to
    [2^24] while [3 + 3 * 2^24] rounds up, so the quotients differ in the
    last place. *)
Lemma scale_counterexample :
  SFltb (S754_zero false) (B32.of_Z 3) = true /\
  SFeqb (B32.of_Z 1) (B32.of_Z 16777216) = false /\
  SFeqb (B32.of_Z 1) (B32.of_ratio 1 2) = false /\
  SFeqb (B32.of_Z 16777216) (B32.of_ratio 1 2) = false /\
  scale (B32.of_Z 3) wide_input_b32
  = [[[B32.of_Z 3; B32.of_Z 50331648; B32.of_ratio 3 2]]] /\
  topk_gate wide_input_b32 2
  = Some [[[S754_finite false 8388608 (-47); S754_finite false 8388608 (-23);
            S754_zero false]]] /\
  topk_gate (scale (B32.of_Z 3) wide_input_b32) 2
  = Some [[[S754_finite false 16777215 (-48);
            S754_finite false 16777215 (-24); S754_zero false]]] /\
  topk_gate (scale (B32.of_Z 3) wide_input_b32) 2
  <> topk_gate wide_input_b32 2.
Proof. by vm_compute. Qed.

(** ** The theorems at concrete inputs *)

Lemma gate_input_b32_shape : has_shape 1 1 4 gate_input_b32.
Proof. repeat constructor. Defined.

Lemma boundary_tie_b32_shape : has_shape 1 1 4 boundary_tie_b32.
Proof. repeat constructor. Defined.

Lemma zero_input_b32_shape : has_shape 1 1 3 zero_input_b32.
Proof. repeat constructor. Defined.

Lemma ramp_b32_shape : has_shape 1 1 8 ramp_b32.
Proof. repeat constructor. Defined.

(** The slice that lines 60-61 leave at a position, read off the
    slice-wise form of the selection. *)
Lemma gate_select_slice {A : Type} `{Scalar A}
    (x sel : tensor3 A) (k : Z) (b t : nat) :
  gate_select x k = Some sel ->
  slice sel b t = slice x b t ≫= select_row k.
Proof.
  rewrite gate_select_slicewise. apply mapM2_slice.
Defined.

(** The scenario frame in binary32, gate size 2: the channels 3 and 1
    are selected, the scattered frame sums to a non-zero number, both
    quotients are non-zero, and exactly two channels of the gated frame
    are non-zero. *)
Lemma gate_shape_sparsity_normalisation_witness :
  has_shape 1 1 4 gate_input_b32 /\ 0 <= 2 <= Z.of_nat 4 /\
  exists sel y ys out,
    gate_select gate_input_b32 2 = Some sel /\
    topk_gate gate_input_b32 2 = Some y /\ has_shape 1 1 4 y /\
    slice sel 0 0 = Some ys /\ slice y 0 0 = Some out /\
    B32.is_zero (sum_row ys) = false /\ B32.is_nan (sum_row ys) = false /\
    out !! 3%nat
    = Some (SFdiv B32.prec B32.emax (B32.of_ratio 9 10) (sum_row ys)) /\
    out !! 1%nat
    = Some (SFdiv B32.prec B32.emax (B32.of_ratio 5 10) (sum_row ys)) /\
    (exists w, out !! 0%nat = Some w /\ B32.is_zero w = true) /\
    (count_nonzero out <= Z.to_nat 2)%nat /\
    count_nonzero out = Z.to_nat 2.
Proof.
  split; [exact gate_input_b32_shape|]. split; [lia|].
  destruct (gate_shape_sparsity_normalisation 1 1 4 2 gate_input_b32
              gate_input_b32_shape)
    as (vals & inds & sel & y & Ht & Hs & Hy & Hshape & Hpos); [lia|].
  destruct (Hpos 0%nat 0%nat _ eq_refl)
    as (i & ys & out & Hi & Hys & Hout & Hlen & Hnd & Hquot & Hnum).
  destruct (topk_slice _ _ _ _ 0%nat 0%nat Ht) as [_ Hi'].
  rewrite Hi in Hi'. vm_compute in Hi'. injection Hi' as ->.
  pose proof (gate_select_slice _ _ _ 0%nat 0%nat Hs) as Hys'.
  rewrite Hys in Hys'. vm_compute in Hys'. injection Hys' as ->.
  destruct Hnum as (Hzero & Hle & Hiff); [reflexivity..|].
  exists sel, y. eexists. exists out.
  split; [exact Hs|]. split; [exact Hy|]. split; [exact Hshape|].
  split; [exact Hys|]. split; [exact Hout|].
  split; [reflexivity|]. split; [reflexivity|].
  split; [apply Hquot; [left|reflexivity]|].
  split; [apply Hquot; [right; left|reflexivity]|].
  split.
  { apply Hzero; [lia|]. intros Hin.
    apply elem_of_cons in Hin as [Hin|Hin]; [discriminate|].
    apply elem_of_cons in Hin as [Hin|Hin]; [discriminate|].
    by apply elem_of_nil in Hin. }
  split; [exact Hle|]. apply Hiff. intros c a Hc Ha.
  apply elem_of_cons in Hc as [->|Hc]; [by injection Ha as <-|].
  apply elem_of_cons in Hc as [->|Hc]; [by injection Ha as <-|].
  by apply elem_of_nil in Hc.
Defined.

(** The scenario frame in binary32, gate size 2. *)
Lemma gate_retains_k_largest_witness :
  has_shape 1 1 4 gate_input_b32 /\ 0 <= 2 <= Z.of_nat 4 /\
  exists vals inds sel,
    topk gate_input_b32 2 = Some (vals, inds) /\
    gate_select gate_input_b32 2 = Some sel /\
    exists v i ys,
      slice vals 0 0 = Some v /\ slice inds 0 0 = Some i /\
      slice sel 0 0 = Some ys /\
      length i = Z.to_nat 2 /\ NoDup i /\
      (forall j c, i !! j = Some c ->
         (c < 4)%nat /\
         v !! j = [B32.of_ratio 1 10; B32.of_ratio 5 10; B32.of_ratio 3 10;
                   B32.of_ratio 9 10] !! c /\
         ys !! c = [B32.of_ratio 1 10; B32.of_ratio 5 10; B32.of_ratio 3 10;
                    B32.of_ratio 9 10] !! c) /\
      (forall c, (c < 4)%nat -> c ∉ i -> ys !! c = Some s_zero) /\
      (forall c c' a a', c ∈ i -> c' ∉ i ->
         [B32.of_ratio 1 10; B32.of_ratio 5 10; B32.of_ratio 3 10;
          B32.of_ratio 9 10] !! c = Some a ->
         [B32.of_ratio 1 10; B32.of_ratio 5 10; B32.of_ratio 3 10;
          B32.of_ratio 9 10] !! c' = Some a' ->
         topk_gt a' a = false).
Proof.
  split; [exact gate_input_b32_shape|]. split; [lia|].
  destruct (gate_retains_k_largest 1 1 4 2 gate_input_b32
              gate_input_b32_shape)
    as (vals & inds & sel & Ht & Hs & Hpos); [lia|].
  exists vals, inds, sel. split; [exact Ht|]. split; [exact Hs|].
  exact (Hpos 0%nat 0%nat _ eq_refl).
Defined.

(** The frame [[2, 1, 1, 1]] with gate size 2: the model selects the
    channels 0 and 1; the channels 0 and 2 are a selection [torch.topk]
    may return as well, and channel 1, which it leaves out, is tied with
    channel 2, which it takes instead. *)
Lemma topk_ties_left_open_witness :
  has_shape 1 1 4 boundary_tie_b32 /\ 0 <= 2 <= Z.of_nat 4 /\
  exists vals inds,
    topk boundary_tie_b32 2 = Some (vals, inds) /\
    slice inds 0 0 = Some [0%nat; 1%nat] /\
    topk_admissible
      [B32.of_Z 2; B32.of_Z 1; B32.of_Z 1; B32.of_Z 1] 2 [0%nat; 1%nat] /\
    topk_admissible
      [B32.of_Z 2; B32.of_Z 1; B32.of_Z 1; B32.of_Z 1] 2 [0%nat; 2%nat] /\
    exists c' a',
      c' ∈ [0%nat; 2%nat] /\ (c' ∉ [0%nat; 1%nat]) /\
      [B32.of_Z 2; B32.of_Z 1; B32.of_Z 1; B32.of_Z 1] !! c' = Some a' /\
      topk_tie (B32.of_Z 1) a'.
Proof.
  split; [exact boundary_tie_b32_shape|]. split; [lia|].
  destruct (topk_ties_left_open 1 1 4 2 boundary_tie_b32
              boundary_tie_b32_shape)
    as (vals & inds & Ht & Hpos); [lia|].
  destruct (Hpos 0%nat 0%nat _ eq_refl) as [(i & Hi & Hadm) Hex].
  destruct (topk_slice _ _ _ _ 0%nat 0%nat Ht) as [_ Hi'].
  rewrite Hi in Hi'. vm_compute in Hi'. injection Hi' as ->.
  pose proof boundary_tie_admissible as Hadm'.
  exists vals, inds. split; [exact Ht|]. split; [exact Hi|].
  split; [exact Hadm|]. split; [exact Hadm'|].
  apply (Hex [0%nat; 1%nat] [0%nat; 2%nat] 1%nat (B32.of_Z 1) Hadm Hadm').
  - right. left.
  - intros Hin. apply elem_of_cons in Hin as [Hin|Hin]; [discriminate|].
    apply elem_of_cons in Hin as [Hin|Hin]; [discriminate|].
    by apply elem_of_nil in Hin.
  - reflexivity.
Defined.

(** The ramp of eight finite binary32 values: factors 2 and 1 succeed,
    factor 9 exceeds the time length. *)
Lemma resample_spec_witness :
  has_shape 1 1 8 ramp_b32 /\ (0 < 1)%nat /\ (0 < 1)%nat /\ 0 < 2 /\ 0 < 9 /\
  ChineseHubert.forward ramp_b32 None = Some ramp_b32 /\
  (exists y, ChineseHubert.forward ramp_b32 (Some 2) = Some y /\
             has_shape 1 1 4 y) /\
  ChineseHubert.forward ramp_b32 (Some 9) = None /\
  ChineseHubert.forward ramp_b32 (Some 1) = Some ramp_b32.
Proof.
  split; [exact ramp_b32_shape|]. do 4 (split; [lia|]).
  destruct (resample_spec 1 1 8 2 ramp_b32 ramp_b32_shape)
    as (Hnone & Hlen & _ & Hid); [lia..|].
  destruct (resample_spec 1 1 8 9 ramp_b32 ramp_b32_shape)
    as (_ & _ & Hshort & _); [lia..|].
  split; [exact Hnone|]. split; [apply Hlen; lia|].
  split; [apply Hshort; lia|].
  apply Hid; [lia|]. intros b c r Hr.
  apply B32Facts.Forall_blend_exact_finite.
  destruct b as [|b]; [|discriminate Hr].
  destruct c as [|c]; [|discriminate Hr].
  injection Hr as <-. repeat constructor.
Defined.

Lemma ensemble_concat_order_witness :
  has_shape 1 1 2 first_features /\ has_shape 1 2 2 second_features /\
  exists y, cat_dim1 [first_features; second_features] = Some y /\
    EnsembleHubert.forward [first_features; second_features] None = Some y /\
    has_shape 1 (1 + 2) 2 y /\
    (forall b c, (c < 1)%nat -> slice y b c = slice first_features b c) /\
    (forall b c, (1 <= c)%nat ->
       slice y b c = slice second_features b (c - 1)).
Proof.
  assert (has_shape 1 1 2 first_features) as H1 by (repeat constructor).
  assert (has_shape 1 2 2 second_features) as H2 by (repeat constructor).
  split; [exact H1|]. split; [exact H2|].
  apply (ensemble_concat_order 1 1 2 2 first_features second_features);
    [exact H1|exact H2].
Defined.

(** A frame of zeros, gate size 2: the scattered frame sums to zero and
    the gated frame is NaN throughout. *)
Lemma gate_zero_sum_non_finite_witness :
  has_shape 1 1 3 zero_input_b32 /\ 0 <= 2 <= Z.of_nat 3 /\
  exists sel y ys out,
    gate_select zero_input_b32 2 = Some sel /\
    topk_gate zero_input_b32 2 = Some y /\
    ChineseHubertSoft._forward zero_input_b32 2 = Some (transpose12 y) /\
    slice sel 0 0 = Some ys /\ slice y 0 0 = Some out /\
    length out = 3%nat /\
    B32.is_zero (sum_row ys) = true /\
    Forall (fun v => B32.non_finite v = true) out /\
    out = replicate 3 S754_nan.
Proof.
  split; [exact zero_input_b32_shape|]. split; [lia|].
  destruct (gate_zero_sum_non_finite 1 1 3 2 zero_input_b32
              zero_input_b32_shape)
    as (sel & y & Hs & Hy & Hfwd & Hpos); [lia|].
  destruct (Hpos 0%nat 0%nat _ eq_refl)
    as (ys & out & Hys & Hout & Hlen & Hsum & Hzero).
  pose proof (gate_select_slice _ _ _ 0%nat 0%nat Hs) as Hys'.
  rewrite Hys in Hys'. vm_compute in Hys'. injection Hys' as ->.
  exists sel, y. eexists. exists out.
  split; [exact Hs|]. split; [exact Hy|]. split; [exact Hfwd|].
  split; [exact Hys|]. split; [exact Hout|]. split; [exact Hlen|].
  split; [reflexivity|]. split.
  - apply Hsum. reflexivity.
  - apply Hzero. repeat constructor.
Defined.

(** The scenario frame in binary32 scaled by 2, gate size 2: doubling
    is exact on the frame, and the gated frames agree. *)
Lemma topk_gate_scale_invariant_witness :
  has_shape 1 1 4 gate_input_b32 /\ 0 <= 2 <= Z.of_nat 4 /\
  SFltb (S754_zero false) (B32.of_Z 2) = true /\
  distinct_values
    [B32.of_ratio 1 10; B32.of_ratio 5 10; B32.of_ratio 3 10;
     B32.of_ratio 9 10] /\
  scales_exactly (B32.of_Z 2) 2
    [B32.of_ratio 1 10; B32.of_ratio 5 10; B32.of_ratio 3 10;
     B32.of_ratio 9 10] /\
  topk_gate (scale (B32.of_Z 2) gate_input_b32) 2
  = topk_gate gate_input_b32 2.
Proof.
  assert (distinct_values
            [B32.of_ratio 1 10; B32.of_ratio 5 10; B32.of_ratio 3 10;
             B32.of_ratio 9 10]) as Hd.
  { intros i j a b Hij Ha Hb [H1 H2].
    destruct i as [|[|[|[|i]]]]; try discriminate Ha;
      destruct j as [|[|[|[|j]]]]; try discriminate Hb;
      try (by destruct Hij);
      injection Ha as <-; injection Hb as <-;
      vm_compute in H1, H2; first [discriminate H1|discriminate H2]. }
  assert (scales_exactly (B32.of_Z 2) 2
            [B32.of_ratio 1 10; B32.of_ratio 5 10; B32.of_ratio 3 10;
             B32.of_ratio 9 10]) as He.
  { split; [|split].
    - intros a b Ha Hb.
      repeat (apply elem_of_cons in Ha as [->|Ha]);
        [..|by apply elem_of_nil in Ha];
        repeat (apply elem_of_cons in Hb as [->|Hb]);
        try (by apply elem_of_nil in Hb); vm_compute; reflexivity.
    - vm_compute. reflexivity.
    - intros ys Hys. vm_compute in Hys. injection Hys as <-.
      split; [vm_compute; reflexivity|].
      repeat constructor; vm_compute; reflexivity. }
  split; [exact gate_input_b32_shape|]. split; [lia|].
  split; [reflexivity|]. split; [exact Hd|]. split; [exact He|].
  apply (topk_gate_scale_invariant 1 1 4 2 (B32.of_Z 2) gate_input_b32
           gate_input_b32_shape); [lia|reflexivity|].
  intros b t xs Hxs.
  destruct b as [|b]; [|discriminate Hxs].
  destruct t as [|t]; [|discriminate Hxs].
  injection Hxs as <-. split; [exact Hd|exact He].
Defined.

Lemma topk_gate_frame_local_witness :
  topk_gate gate_input_b32 2
  = Some [[[S754_zero false; S754_finite false 11983726 (-25);
            S754_zero false; S754_finite false 10785353 (-24)]]] /\
  topk_gate two_frames_b32 2
  = Some [[[S754_zero false; S754_finite false 11983726 (-25);
            S754_zero false; S754_finite false 10785353 (-24)];
           [B32.of_Z 1; B32.of_Z 0; B32.of_Z 0; B32.of_Z 0]]] /\
  slice gate_input_b32 0 0
  = Some [B32.of_ratio 1 10; B32.of_ratio 5 10; B32.of_ratio 3 10;
          B32.of_ratio 9 10] /\
  slice two_frames_b32 0 0
  = Some [B32.of_ratio 1 10; B32.of_ratio 5 10; B32.of_ratio 3 10;
          B32.of_ratio 9 10] /\
  slice [[[S754_zero false; S754_finite false 11983726 (-25);
           S754_zero false; S754_finite false 10785353 (-24)]]] 0 0
  = gate_row 2 [B32.of_ratio 1 10; B32.of_ratio 5 10; B32.of_ratio 3 10;
                B32.of_ratio 9 10] /\
  slice [[[S754_zero false; S754_finite false 11983726 (-25);
           S754_zero false; S754_finite false 10785353 (-24)];
          [B32.of_Z 1; B32.of_Z 0; B32.of_Z 0; B32.of_Z 0]]] 0 0
  = slice [[[S754_zero false; S754_finite false 11983726 (-25);
             S754_zero false; S754_finite false 10785353 (-24)]]] 0 0.
Proof.
  assert (topk_gate gate_input_b32 2
          = Some [[[S754_zero false; S754_finite false 11983726 (-25);
                    S754_zero false; S754_finite false 10785353 (-24)]]])
    as Hy by (vm_compute; reflexivity).
  assert (topk_gate two_frames_b32 2
          = Some [[[S754_zero false; S754_finite false 11983726 (-25);
                    S754_zero false; S754_finite false 10785353 (-24)];
                   [B32.of_Z 1; B32.of_Z 0; B32.of_Z 0; B32.of_Z 0]]])
    as Hy' by (vm_compute; reflexivity).
  split; [exact Hy|]. split; [exact Hy'|].
  split; [reflexivity|]. split; [reflexivity|].
  exact (topk_gate_frame_local 2 gate_input_b32 two_frames_b32 _ _ 0 0 _
           Hy Hy' eq_refl eq_refl).
Defined.

(** * Further properties of the three methods *)

(** ** Transposition *)

Section Transpose.
Context {X : Type}.

Lemma omap_fmap_drop (c : nat) (m : list (list X)) :
  omap (fun r : list X => r !! c) ((fun r : list X => drop 1 r) <$> m)
  = omap (fun r : list X => r !! S c) m.
Proof.
  induction m as [|r m IH]; [done|]. cbn. rewrite IH.
  by rewrite lookup_drop.
Qed.

(** Row [c] of the transposed matrix collects entry [c] of every row. *)
Lemma transpose_rows_lookup (n c : nat) (m : list (list X)) :
  (c < n)%nat ->
  transpose_rows n m !! c = Some (omap (fun r : list X => r !! c) m).
Proof.
  revert c m. induction n as [|n IH]; intros c m Hc; [lia|].
  destruct c as [|c]; cbn.
  - f_equal. apply list_omap_ext with (g := fun r : list X => r !! 0%nat).
    clear. induction m as [|r m IH]; constructor; [apply head_lookup|done].
  - rewrite IH by lia. by rewrite omap_fmap_drop.
Qed.

Lemma length_transpose_rows (n : nat) (m : list (list X)) :
  length (transpose_rows n m) = n.
Proof. revert m. induction n as [|n IH]; intros m; cbn; [done|]. by rewrite IH. Qed.

Lemma omap_lookup_total (c : nat) (m : list (list X)) :
  Forall (fun r => (c < length r)%nat) m ->
  length (omap (fun r : list X => r !! c) m) = length m /\
  forall t, omap (fun r : list X => r !! c) m !! t
            = m !! t ≫= fun r => r !! c.
Proof.
  induction 1 as [|r m Hr _ [IHl IHt]]; [by split; [|intros []]|].
  destruct (lookup_lt_is_Some_2 r c Hr) as [v Hv]. cbn. rewrite Hv. cbn.
  split; [by rewrite IHl|]. intros [|t]; cbn; [done|apply IHt].
Qed.

(** [transpose(1, 2)] of a tensor of shape [[n0, n1, n2]] with [n1 > 0]
    has shape [[n0, n2, n1]], and its entry [(b, c, t)] is the entry
    [(b, t, c)] of the tensor. *)
Lemma transpose12_spec (n0 n1 n2 : nat) (x : tensor3 X) :
  has_shape n0 n1 n2 x -> (0 < n1)%nat ->
  has_shape n0 n2 n1 (transpose12 x) /\
  forall b c t, (c < n2)%nat ->
    slice (transpose12 x) b c ≫= (fun r => r !! t)
    = slice x b t ≫= (fun r => r !! c).
Proof.
  intros Hx Hn1. apply has_shape_lookup in Hx as [Hn0 Hx].
  assert (forall m : list (list X), length m = n1 ->
            (forall c r, m !! c = Some r -> length r = n2) ->
            match m with r :: _ => length r | [] => 0%nat end = n2) as Hfirst.
  { intros [|r m] Hl Hr; cbn in Hl; [lia|]. by apply (Hr 0%nat). }
  split.
  - apply has_shape_lookup. unfold transpose12.
    split; [by rewrite length_fmap|].
    intros b m' Hm'. rewrite list_lookup_fmap in Hm'.
    destruct (x !! b) as [m|] eqn:Hm; [|done]. cbn in Hm'.
    injection Hm' as <-. destruct (Hx b m Hm) as [Hl Hr].
    rewrite (Hfirst m Hl Hr). split; [apply length_transpose_rows|].
    intros c r Hc.
    assert (c < n2)%nat as Hlt.
    { apply lookup_lt_Some in Hc. by rewrite length_transpose_rows in Hc. }
    rewrite transpose_rows_lookup in Hc by done. injection Hc as <-.
    rewrite <- Hl. apply omap_lookup_total.
    apply Forall_lookup. intros t r Ht. rewrite (Hr t r Ht). done.
  - intros b c t Hc. unfold slice, transpose12. rewrite list_lookup_fmap.
    destruct (x !! b) as [m|] eqn:Hm; [|done]. cbn.
    destruct (Hx b m Hm) as [Hl Hr]. rewrite (Hfirst m Hl Hr).
    rewrite transpose_rows_lookup by done. cbn.
    apply omap_lookup_total.
    apply Forall_lookup. intros t' r Ht. rewrite (Hr t' r Ht). done.
Qed.
End Transpose.

(** ** The gate: layout, full width, rejected sizes *)

Section GateMore.
Context {A : Type} `{Scalar A}.

(** Selecting as many entries as the slice has gives the slice back. *)
Lemma select_row_all (xs : list A) :
  select_row (Z.of_nat (length xs)) xs = Some xs.
Proof.
  destruct (select_row_spec (Z.of_nat (length xs)) xs)
    as (ys & Hys & Hlen & Hkept & _); [lia|].
  rewrite Hys. f_equal. apply list_eq. intros i.
  destruct (xs !! i) as [v|] eqn:Hv.
  - apply Hkept. rewrite Nat2Z.id, take_ge by (by rewrite length_sort_desc).
    by apply elem_of_sort_desc.
  - apply lookup_ge_None. apply lookup_ge_None in Hv. lia.
Qed.

Lemma mapM2_ext_shape {X Y} (f g : list X -> option Y)
    (n0 n1 n2 : nat) (x : tensor3 X) :
  has_shape n0 n1 n2 x ->
  (forall r, length r = n2 -> f r = g r) ->
  mapM (mapM f) x = mapM (mapM g) x.
Proof.
  intros [_ Hx] Hfg. apply Forall_mapM_ext.
  eapply Forall_impl; [exact Hx|]. intros m [_ Hm]. cbn.
  apply Forall_mapM_ext. eapply Forall_impl; [exact Hm|]. intros r Hr.
  by apply Hfg.
Qed.

Lemma mapM2_Some_fmap2 {X Y} (g : X -> Y) (x : list (list X)) :
  mapM (mapM (fun r => Some (g r))) x = Some (fmap2 g x).
Proof.
  unfold fmap2. erewrite mapM_ext; [apply mapM_Some_fmap|].
  intros m. apply mapM_Some_fmap.
Qed.

(** A slice-wise function that fails on every slice of length [n2]
    fails on every tensor that has a slice. *)
Lemma mapM2_None_shape {X Y} (f : list X -> option Y)
    (n0 n1 n2 : nat) (x : tensor3 X) :
  has_shape n0 n1 n2 x -> (0 < n0)%nat -> (0 < n1)%nat ->
  (forall r, length r = n2 -> f r = None) ->
  mapM (mapM f) x = None.
Proof.
  intros [Hn0 Hx] H0 H1 Hf.
  destruct x as [|m x]; cbn in Hn0; [lia|].
  apply Forall_cons in Hx as [[Hm Hr] _].
  destruct m as [|r m]; cbn in Hm; [lia|].
  apply Forall_cons in Hr as [Hr _].
  cbn. by rewrite (Hf r Hr).
Qed.
End GateMore.

(** X1. [_forward] on features of shape [[B, T, C]] with at least one
    frame and [0 <= k <= C] returns a tensor of shape [[B, C, T]]: the
    channel axis comes second, and entry [(b, c, t)] is the gated value
    of channel [c] in frame [t]. *)
Theorem soft_forward_layout {A : Type} `{Scalar A}
    (B T C : nat) (k : Z) (x : tensor3 A) :
  has_shape B T C x -> (0 < T)%nat -> 0 <= k <= Z.of_nat C ->
  exists g y,
    topk_gate x k = Some g /\ ChineseHubertSoft._forward x k = Some y /\
    has_shape B C T y /\
    forall b c t, (c < C)%nat ->
      slice y b c ≫= (fun r => r !! t) = slice g b t ≫= (fun r => r !! c).
Proof.
  intros Hx HT Hk.
  destruct (topk_gate_shape B T C k x Hx Hk) as (g & Hg & Hshape).
  exists g, (transpose12 g). split; [done|].
  split; [unfold ChineseHubertSoft._forward; by rewrite Hg|].
  by apply transpose12_spec.
Qed.

(** X2. With the gate size equal to the channel count nothing is
    dropped: the gate is the division of every frame by its channel
    sum. *)
Theorem gate_full_width_is_normalisation {A : Type} `{Scalar A}
    (B T C : nat) (x : tensor3 A) :
  has_shape B T C x ->
  topk_gate x (Z.of_nat C) = div x (sum_keepdim x).
Proof.
  intros Hx. rewrite topk_gate_slicewise, div_sum_keepdim.
  rewrite <- mapM2_Some_fmap2.
  apply (mapM2_ext_shape _ _ B T C x Hx). intros r <-.
  unfold gate_row. by rewrite select_row_all.
Qed.

(** X3. On features of shape [[B, T, C]] that hold at least one frame,
    [_forward] raises exactly when the gate size is negative or exceeds
    the channel count. *)
Theorem soft_forward_rejects_exactly {A : Type} `{Scalar A}
    (B T C : nat) (k : Z) (x : tensor3 A) :
  has_shape B T C x -> (0 < B)%nat -> (0 < T)%nat ->
  ChineseHubertSoft._forward x k = None <-> k < 0 \/ Z.of_nat C < k.
Proof.
  intros Hx HB HT. unfold ChineseHubertSoft._forward. split.
  - intros Hnone.
    destruct (decide (0 <= k <= Z.of_nat C)) as [Hk|Hk]; [|lia].
    destruct (topk_gate_shape B T C k x Hx Hk) as (y & Hy & _).
    by rewrite Hy in Hnone.
  - intros Hk. rewrite topk_gate_slicewise.
    rewrite (mapM2_None_shape _ B T C x Hx HB HT); [done|].
    intros r <-. unfold gate_row. rewrite select_row_None; [done|lia].
Qed.

(** X4. In binary32, wherever the scattered frame sums to a number other
    than zero (NaN excluded), every channel outside the [k] selected
    ones is a zero in the gated frame, so at most [k] channels are
    non-zero. *)
Theorem gate_at_most_k_nonzero
    (B T C : nat) (k : Z) (x : tensor3 spec_float) :
  has_shape B T C x -> 0 <= k <= Z.of_nat C ->
  exists vals inds sel y,
    topk x k = Some (vals, inds) /\ gate_select x k = Some sel /\
    topk_gate x k = Some y /\
    forall b t xs, slice x b t = Some xs ->
      exists i ys out,
        slice inds b t = Some i /\ slice sel b t = Some ys /\
        slice y b t = Some out /\
        (B32.is_zero (sum_row ys) = false ->
         B32.is_nan (sum_row ys) = false ->
         (forall c, (c < C)%nat -> c ∉ i ->
            exists w, out !! c = Some w /\ B32.is_zero w = true) /\
         (count_nonzero out <= Z.to_nat k)%nat).
Proof.
  intros Hx Hk.
  destruct (topk_shape B T C k x Hx Hk) as (vals & inds & Htopk).
  destruct (gate_select_shape B T C k x Hx Hk) as (sel & Hsel & _).
  destruct (topk_gate_shape B T C k x Hx Hk) as (y & Hy & _).
  exists vals, inds, sel, y. do 3 (split; [done|]).
  intros b t xs Hxs.
  destruct (slice_shape _ _ _ _ _ _ _ Hx Hxs) as (_ & _ & Hlen). subst C.
  destruct (topk_slice x k vals inds b t Htopk) as [_ Hi].
  rewrite Hxs in Hi. cbn in Hi. rewrite topk_row_Some in Hi by done. cbn in Hi.
  pose proof (gate_select_slice _ _ _ b t Hsel) as Hys.
  rewrite Hxs in Hys. cbn in Hys.
  rewrite topk_gate_slicewise in Hy.
  pose proof (mapM2_slice _ _ _ b t Hy) as Hout. rewrite Hxs in Hout.
  cbn in Hout.
  destruct (gate_row_Some k xs Hk) as (ys & Hsome & _ & Hgate).
  rewrite Hsome in Hys. rewrite Hgate in Hout.
  eexists _, ys, _. do 3 (split; [done|]). intros Hz Hn.
  destruct (B32Sparsity.gate_row_sparse k xs ys Hk Hsome Hz Hn)
    as (out & Hout' & Hzero & Hcount).
  rewrite Hgate in Hout'. injection Hout' as <-. by split.
Qed.

(** X5. Gate size 0 is accepted: in binary32 [_forward]'s gate then
    returns a tensor of the input's shape that holds NaN only. *)
Theorem gate_size_zero_all_nan (B T C : nat) (x : tensor3 spec_float) :
  has_shape B T C x ->
  topk_gate x 0 = Some (fmap2 (fun _ => replicate C S754_nan) x).
Proof.
  intros Hx. rewrite topk_gate_slicewise, <- mapM2_Some_fmap2.
  apply (mapM2_ext_shape _ _ B T C x Hx). intros r <-.
  unfold gate_row. rewrite B32Sparsity.select_row_none_selected. cbn -[sum_row].
  f_equal.
  assert (Forall (fun v => B32.is_zero v = true)
            (replicate (length r) (S754_zero false))) as Hz.
  { apply Forall_replicate. done. }
  rewrite (B32Facts.fmap_div_zeros _ _ (B32Facts.sum_row_zeros _ Hz) Hz).
  by rewrite length_replicate.
Qed.

(** ** Resampling: accepted factors *)

Lemma Z_div_neg_divisor (a d : Z) : 0 <= a -> d < 0 -> a `div` d <= 0.
Proof.
  intros Ha Hd.
  pose proof (Z.div_mod a d ltac:(lia)) as Hdm.
  pose proof (Z.mod_neg_bound a d Hd) as Hr. nia.
Qed.

(** X6. [ChineseHubert.forward] from the encoder output on (lines
    89-101), for an output of shape [[B, T, C]] with no empty axis:
    without a downsample factor it returns the transposed tensor, of
    shape [[B, C, T]]; with a factor [d] it returns a tensor exactly when
    [1 <= d <= T] (zero, negative and too large factors all raise), and
    the tensor then has shape [[B, C, T // d]]. *)
Theorem hubert_forward_accepts_exactly {A : Type} `{Scalar A}
    (B T C : nat) (d : Z) (h : tensor3 A) :
  has_shape B T C h -> (0 < B)%nat -> (0 < T)%nat -> (0 < C)%nat ->
  FromEncoder.ChineseHubert_forward h None = Some (transpose12 h) /\
  has_shape B C T (transpose12 h) /\
  (is_Some (FromEncoder.ChineseHubert_forward h (Some d))
   <-> 1 <= d <= Z.of_nat T) /\
  forall y, FromEncoder.ChineseHubert_forward h (Some d) = Some y ->
    has_shape B C (Z.to_nat (Z.of_nat T `div` d)) y.
Proof.
  intros Hh HB HT HC.
  destruct (transpose12_spec B T C h Hh HT) as [Hx _].
  pose proof (shape2_has_shape _ _ _ _ Hx HB HC) as Hs.
  split; [done|]. split; [done|].
  unfold FromEncoder.ChineseHubert_forward, ChineseHubert.forward, resample.
  cbn zeta. rewrite Hs.
  destruct (decide (d = 0)) as [->|Hd0].
  { split; [|done]. split; [by intros [? ?]|lia]. }
  destruct (decide (1 <= d <= Z.of_nat T)) as [Hd|Hd].
  - assert (0 < Z.of_nat T `div` d) by (apply Z.div_str_pos; lia).
    rewrite interpolate_Some by lia. split; [by split; [|eauto]|].
    intros y [= <-]. apply (has_shape_fmap2 _ _ _ _ _ _ Hx). intros r.
    apply length_upsample_linear1d_row.
  - assert (Z.of_nat T `div` d <= 0) as Hsize.
    { destruct (decide (d < 0)); [apply Z_div_neg_divisor; lia|].
      rewrite Z.div_small; lia. }
    rewrite interpolate_None by done.
    split; [|done]. split; [by intros [? ?]|done].
Qed.

(** ** Concatenation of any number of feature tensors *)

Section ConcatMore.
Context {X : Type}.

Lemma cat2_lookup (B C1 C2 T : nat) (x1 x2 : tensor3 X) (b : nat) :
  has_shape B C1 T x1 -> has_shape B C2 T x2 -> (b < B)%nat ->
  zip_with app x1 x2 !! b
  = Some (default [] (x1 !! b) ++ default [] (x2 !! b)).
Proof.
  intros [H1 _] [H2 _] Hb. rewrite lookup_zip_with.
  destruct (lookup_lt_is_Some_2 x1 b) as [m1 ->]; [lia|].
  destruct (lookup_lt_is_Some_2 x2 b) as [m2 ->]; [lia|]. done.
Qed.

(** The left fold of [cat_dim1] appends the channel matrices of the
    remaining tensors, in their order, to those of the accumulator. *)
Lemma foldl_cat2_spec (B T : nat) (rest : list (tensor3 X)) (cs : list nat) :
  Forall2 (fun (t : tensor3 X) (C : nat) => has_shape B C T t) rest cs ->
  forall (C0 : nat) (acc : tensor3 X), has_shape B C0 T acc ->
  exists y,
    foldl (fun acc t => a ← acc; cat2 a t) (Some acc) rest = Some y /\
    has_shape B (C0 + sum_list cs) T y /\
    forall b, (b < B)%nat ->
      y !! b = Some (default [] (acc !! b) ++
                     concat ((fun t : tensor3 X => default [] (t !! b)) <$> rest)).
Proof.
  induction 1 as [|t C rest cs Ht _ IH]; intros C0 acc Hacc.
  - exists acc. split; [done|]. cbn. rewrite Nat.add_0_r. split; [done|].
    intros b Hb. destruct Hacc as [Hl _].
    destruct (lookup_lt_is_Some_2 acc b) as [m ->]; [lia|].
    cbn. by rewrite app_nil_r.
  - destruct (cat2_spec B C0 C T acc t Hacc Ht) as [Hcat Hshape].
    destruct (IH _ _ Hshape) as (y & Hy & Hys & Hyb).
    exists y. cbn. rewrite Hcat. split; [exact Hy|]. split.
    + by rewrite Nat.add_assoc.
    + intros b Hb. rewrite (Hyb b Hb), (cat2_lookup B C0 C T) by done.
      cbn. by rewrite app_assoc.
Qed.

Lemma cat_dim1_spec (B T : nat) (ts : list (tensor3 X)) (cs : list nat) :
  Forall2 (fun (t : tensor3 X) (C : nat) => has_shape B C T t) ts cs ->
  ts <> [] ->
  exists y,
    cat_dim1 ts = Some y /\ has_shape B (sum_list cs) T y /\
    forall b, (b < B)%nat ->
      y !! b = Some (concat ((fun t : tensor3 X => default [] (t !! b)) <$> ts)).
Proof.
  intros Hts Hne. destruct Hts as [|t C rest cs Ht Hrest]; [done|].
  destruct (foldl_cat2_spec B T rest cs Hrest C t Ht) as (y & Hy & Hys & Hyb).
  by exists y.
Qed.

(** With no empty axis, the rows of two tensors have one length exactly
    when the tensors have the same size along the last axis. *)
Lemma same_last_size_iff (B1 C1 T1 B2 C2 T2 : nat) (x1 x2 : tensor3 X) :
  has_shape B1 C1 T1 x1 -> has_shape B2 C2 T2 x2 ->
  (0 < B1)%nat -> (0 < C1)%nat -> (0 < B2)%nat -> (0 < C2)%nat ->
  same_last_size x1 x2 <-> T1 = T2.
Proof.
  intros H1 H2 HB1 HC1 HB2 HC2.
  pose proof (has_shape_concat _ _ _ _ H1) as Hr1.
  pose proof (has_shape_concat _ _ _ _ H2) as Hr2.
  destruct H1 as [Hl1 H1], H2 as [Hl2 H2].
  destruct x1 as [|[|r1 m1] x1]; cbn in Hl1; [lia| |].
  { apply Forall_cons in H1 as [[Hm _] _]. cbn in Hm. lia. }
  destruct x2 as [|[|r2 m2] x2]; cbn in Hl2; [lia| |].
  { apply Forall_cons in H2 as [[Hm _] _]. cbn in Hm. lia. }
  unfold same_last_size. cbn in *.
  apply Forall_cons in Hr1 as [Hr1 Hrest1], Hr2 as [Hr2 Hrest2].
  split.
  - intros Hall. apply Forall_app in Hall as [_ Hall].
    apply Forall_cons in Hall as [Hall _]. congruence.
  - intros <-. apply Forall_app. split.
    + eapply Forall_impl; [exact Hrest1|]. intros r Hr. cbn in *. congruence.
    + constructor; [congruence|].
      eapply Forall_impl; [exact Hrest2|]. intros r Hr. cbn in *. congruence.
Qed.

Lemma fmap2_zip_with_app {Y} (f : list X -> list Y) (x1 x2 : tensor3 X) :
  fmap2 f (zip_with app x1 x2) = zip_with app (fmap2 f x1) (fmap2 f x2).
Proof.
  unfold fmap2. revert x2. induction x1 as [|m1 x1 IH]; intros [|m2 x2]; cbn;
    try done.
  by rewrite fmap_app, IH.
Qed.
End ConcatMore.

(** X8. [EnsembleHubert.forward] for any number of models, from the
    encoder outputs on (lines 116-123 and 129-144): when the encoder of
    model number [i] returns a tensor of shape [[B, T, C_i]], the
    ensemble built by [__init__] without a downsample factor returns a
    tensor of shape [[B, C_1 + ... + C_n, T]] whose batch entry [b] is
    the concatenation of the transposed outputs' channel rows, in the
    order in which the models were configured; with an empty list of
    models nothing is returned. *)
Theorem ensemble_forward_concatenates
    {A Audio Input FE HM Id : Type} `{Scalar A}
    (call_extractor : FE -> Audio -> Input)
    (call_model : HM -> Input -> tensor3 A)
    (extractor_of : Id -> FE) (model_of : Id -> HM) (audio : Audio)
    (B T : nat) (models : list Id) (cs : list nat) :
  Forall2
    (fun (m : Id) (C : nat) =>
       has_shape B T C
         (call_model (model_of m) (call_extractor (extractor_of m) audio)))
    models cs ->
  (0 < T)%nat ->
  (models = [] ->
   FromEncoder.EnsembleHubert_forward call_extractor call_model
     (FromEncoder.EnsembleHubert_init extractor_of model_of models None) audio
   = None) /\
  (models <> [] ->
   exists y,
     FromEncoder.EnsembleHubert_forward call_extractor call_model
       (FromEncoder.EnsembleHubert_init extractor_of model_of models None)
       audio
     = Some y /\
     has_shape B (sum_list cs) T y /\
     forall b, (b < B)%nat ->
       y !! b
       = Some (concat
           ((fun m : Id =>
               default []
                 (transpose12
                    (call_model (model_of m)
                       (call_extractor (extractor_of m) audio)) !! b))
            <$> models))).
Proof.
  intros Hshape HT.
  unfold FromEncoder.EnsembleHubert_forward, FromEncoder.EnsembleHubert_init.
  cbn [FromEncoder.feature_extractors FromEncoder.model FromEncoder.downsample].
  rewrite zip_with_fmap_l, zip_with_fmap_r, zip_with_diag, <- list_fmap_compose.
  split; [by intros ->|]. intros Hne.
  set (f := fun m : Id =>
              transpose12
                (call_model (model_of m)
                   (call_extractor (extractor_of m) audio))).
  destruct (cat_dim1_spec B T (f <$> models) cs) as (y & Hy & Hys & Hyb).
  { apply Forall2_fmap_l. eapply Forall2_impl; [exact Hshape|].
    intros m C Hm. by apply (transpose12_spec B T C). }
  { by destruct models. }
  exists y. unfold EnsembleHubert.forward.
  change (_ <$> models) with (f <$> models) at 1. rewrite Hy. cbn.
  split; [done|]. split; [done|]. intros b Hb.
  rewrite (Hyb b Hb), <- list_fmap_compose. done.
Qed.

(** X9. Encoder outputs that disagree in batch size or in time length
    are never concatenated: for two feature tensors of shapes
    [[B1, C1, T1]] and [[B2, C2, T2]] with no empty axis,
    [EnsembleHubert.forward] raises for every downsample setting when
    [B1 <> B2] or [T1 <> T2], and without a downsample factor it returns
    a tensor exactly when [B1 = B2] and [T1 = T2], whatever the channel
    counts are. *)
Theorem ensemble_rejects_mismatch {A : Type} `{Scalar A}
    (B1 C1 T1 B2 C2 T2 : nat) (x1 x2 : tensor3 A) :
  has_shape B1 C1 T1 x1 -> has_shape B2 C2 T2 x2 ->
  (0 < B1)%nat -> (0 < C1)%nat -> (0 < B2)%nat -> (0 < C2)%nat ->
  (B1 <> B2 \/ T1 <> T2 ->
   forall downsample, EnsembleHubert.forward [x1; x2] downsample = None) /\
  (is_Some (EnsembleHubert.forward [x1; x2] None) <-> B1 = B2 /\ T1 = T2).
Proof.
  intros H1 H2 HB1 HC1 HB2 HC2.
  pose proof (same_last_size_iff _ _ _ _ _ _ _ _ H1 H2 HB1 HC1 HB2 HC2) as HT.
  assert (length x1 = B1) as Hl1 by apply H1.
  assert (length x2 = B2) as Hl2 by apply H2.
  unfold EnsembleHubert.forward. cbn. unfold cat2.
  destruct (decide (length x1 = length x2 /\ same_last_size x1 x2))
    as [[Hl Hs]|Hn]; cbn.
  - apply HT in Hs. split; [intros [?|?]; congruence|].
    split; [intros _; split; congruence|by eauto].
  - split; [done|]. split; [by intros [? ?]|].
    intros [-> HT']. destruct Hn. split; [congruence|by apply HT].
Qed.

(** X10. An ensemble of two models is the concatenation of two single
    models: for encoder outputs of shapes [[B, T, C1]] and [[B, T, C2]]
    with no empty axis and for every downsample setting,
    [EnsembleHubert.forward] returns what concatenating along the channel
    axis the results of [ChineseHubert.forward] for the two encoders
    returns, and raises when either of them raises; concatenation and
    resampling commute. *)
Theorem ensemble_is_concat_of_single
    {A Audio Input FE HM Id : Type} `{Scalar A}
    (call_extractor : FE -> Audio -> Input)
    (call_model : HM -> Input -> tensor3 A)
    (extractor_of : Id -> FE) (model_of : Id -> HM) (audio : Audio)
    (B T C1 C2 : nat) (m1 m2 : Id) (downsample : option Z) :
  has_shape B T C1
    (call_model (model_of m1) (call_extractor (extractor_of m1) audio)) ->
  has_shape B T C2
    (call_model (model_of m2) (call_extractor (extractor_of m2) audio)) ->
  (0 < B)%nat -> (0 < T)%nat -> (0 < C1)%nat -> (0 < C2)%nat ->
  FromEncoder.EnsembleHubert_forward call_extractor call_model
    (FromEncoder.EnsembleHubert_init extractor_of model_of [m1; m2] downsample)
    audio
  = y1 ← FromEncoder.ChineseHubert_forward
           (call_model (model_of m1) (call_extractor (extractor_of m1) audio))
           downsample;
    y2 ← FromEncoder.ChineseHubert_forward
           (call_model (model_of m2) (call_extractor (extractor_of m2) audio))
           downsample;
    cat_dim1 [y1; y2].
Proof.
  intros H1 H2 HB HT HC1 HC2.
  unfold FromEncoder.EnsembleHubert_forward, FromEncoder.EnsembleHubert_init,
    FromEncoder.ChineseHubert_forward, ChineseHubert.forward,
    EnsembleHubert.forward.
  cbn [FromEncoder.feature_extractors FromEncoder.model FromEncoder.downsample
       fmap list_fmap zip_with fst snd cat_dim1 foldl].
  cbn zeta.
  apply (transpose12_spec B T C1) in H1 as [H1 _]; [|done].
  apply (transpose12_spec B T C2) in H2 as [H2 _]; [|done].
  set (x1 := transpose12
              (call_model (model_of m1)
                 (call_extractor (extractor_of m1) audio))) in *.
  set (x2 := transpose12
              (call_model (model_of m2)
                 (call_extractor (extractor_of m2) audio))) in *.
  destruct (cat2_spec B C1 C2 T x1 x2 H1 H2) as [Hcat Hshape].
  cbn [mbind option_bind]. rewrite Hcat. cbn [mbind option_bind].
  unfold resample. destruct downsample as [d|]; [|by cbn; rewrite Hcat].
  destruct (decide (d = 0)); [done|].
  rewrite (shape2_has_shape _ _ _ _ Hshape), (shape2_has_shape _ _ _ _ H1),
    (shape2_has_shape _ _ _ _ H2) by lia.
  unfold interpolate.
  rewrite (shape2_has_shape _ _ _ _ Hshape), (shape2_has_shape _ _ _ _ H1),
    (shape2_has_shape _ _ _ _ H2) by lia.
  destruct (decide _) as [Hok|]; [|done]. cbn.
  rewrite fmap2_zip_with_app. symmetry.
  eapply (cat2_spec B C1 C2 (Z.to_nat (Z.of_nat T `div` d)));
    eapply has_shape_fmap2; eauto using length_upsample_linear1d_row.
Qed.

(** ** The further properties at concrete inputs *)

Lemma first_hidden_shape : has_shape 1 2 1 first_hidden.
Proof. repeat constructor. Defined.

Lemma second_hidden_shape : has_shape 1 2 2 second_hidden.
Proof. repeat constructor. Defined.

(** The scenario frame, gate size 2: [_forward] returns a tensor of shape
    [[1, 4, 1]]. *)
Lemma soft_forward_layout_witness :
  has_shape 1 1 4 gate_input_b32 /\ (0 < 1)%nat /\ 0 <= 2 <= Z.of_nat 4 /\
  exists g y,
    topk_gate gate_input_b32 2 = Some g /\
    ChineseHubertSoft._forward gate_input_b32 2 = Some y /\
    has_shape 1 4 1 y /\
    forall b c t, (c < 4)%nat ->
      slice y b c ≫= (fun r => r !! t) = slice g b t ≫= (fun r => r !! c).
Proof.
  split; [exact gate_input_b32_shape|]. split; [lia|]. split; [lia|].
  apply (soft_forward_layout 1 1 4 2 gate_input_b32 gate_input_b32_shape);
    lia.
Defined.

Lemma gate_full_width_is_normalisation_witness :
  has_shape 1 1 4 gate_input_b32 /\
  topk_gate gate_input_b32 (Z.of_nat 4)
  = div gate_input_b32 (sum_keepdim gate_input_b32).
Proof.
  split; [exact gate_input_b32_shape|].
  exact (gate_full_width_is_normalisation 1 1 4 gate_input_b32
           gate_input_b32_shape).
Defined.

(** Gate size 5 on a frame of four channels. *)
Lemma soft_forward_rejects_exactly_witness :
  has_shape 1 1 4 gate_input_b32 /\ (0 < 1)%nat /\ (0 < 1)%nat /\
  ChineseHubertSoft._forward gate_input_b32 5 = None.
Proof.
  split; [exact gate_input_b32_shape|]. split; [lia|]. split; [lia|].
  apply (soft_forward_rejects_exactly 1 1 4 5 gate_input_b32
           gate_input_b32_shape); lia.
Defined.

(** The scenario frame in binary32, gate size 2: the scattered frame
    sums to a non-zero number, and at most two channels of the gated
    frame are non-zero. *)
Lemma gate_at_most_k_nonzero_witness :
  has_shape 1 1 4 gate_input_b32 /\ 0 <= 2 <= Z.of_nat 4 /\
  exists sel y ys out,
    gate_select gate_input_b32 2 = Some sel /\
    topk_gate gate_input_b32 2 = Some y /\
    slice sel 0 0 = Some ys /\ slice y 0 0 = Some out /\
    B32.is_zero (sum_row ys) = false /\ B32.is_nan (sum_row ys) = false /\
    (count_nonzero out <= Z.to_nat 2)%nat.
Proof.
  split; [exact gate_input_b32_shape|]. split; [lia|].
  destruct (gate_at_most_k_nonzero 1 1 4 2 gate_input_b32
              gate_input_b32_shape)
    as (vals & inds & sel & y & Ht & Hs & Hy & Hpos); [lia|].
  destruct (Hpos 0%nat 0%nat _ eq_refl)
    as (i & ys & out & Hi & Hys & Hout & Hsparse).
  pose proof (gate_select_slice _ _ _ 0%nat 0%nat Hs) as Hys'.
  rewrite Hys in Hys'. vm_compute in Hys'. injection Hys' as ->.
  exists sel, y. eexists. exists out.
  split; [exact Hs|]. split; [exact Hy|]. split; [exact Hys|].
  split; [exact Hout|]. split; [reflexivity|]. split; [reflexivity|].
  apply Hsparse; reflexivity.
Defined.

Lemma gate_size_zero_all_nan_witness :
  has_shape 1 1 4 gate_input_b32 /\
  topk_gate gate_input_b32 0
  = Some [[[S754_nan; S754_nan; S754_nan; S754_nan]]].
Proof.
  split; [exact gate_input_b32_shape|].
  exact (gate_size_zero_all_nan 1 1 4 gate_input_b32 gate_input_b32_shape).
Defined.

(** An encoder output of two frames: factor 2 is accepted and leaves one
    time step. *)
Lemma hubert_forward_accepts_exactly_witness :
  has_shape 1 2 2 second_hidden /\
  (0 < 1)%nat /\ (0 < 2)%nat /\ (0 < 2)%nat /\
  FromEncoder.ChineseHubert_forward second_hidden None
  = Some (transpose12 second_hidden) /\
  has_shape 1 2 2 (transpose12 second_hidden) /\
  (is_Some (FromEncoder.ChineseHubert_forward second_hidden (Some 2))
   <-> 1 <= 2 <= Z.of_nat 2) /\
  forall y, FromEncoder.ChineseHubert_forward second_hidden (Some 2) = Some y ->
    has_shape 1 2 (Z.to_nat (Z.of_nat 2 `div` 2)) y.
Proof.
  split; [exact second_hidden_shape|]. do 3 (split; [lia|]).
  apply (hubert_forward_accepts_exactly 1 2 2 2 second_hidden
           second_hidden_shape); lia.
Defined.

(** Two models whose encoders return [first_hidden] and
    [second_hidden]. *)
Lemma ensemble_forward_concatenates_witness :
  Forall2
    (fun (m : bool) (C : nat) =>
       has_shape 1 2 C (if m then second_hidden else first_hidden))
    [false; true] [1%nat; 2%nat] /\
  (0 < 2)%nat /\ [false; true] <> [] /\
  exists y,
    FromEncoder.EnsembleHubert_forward
      (fun (_ : unit) (audio : unit) => audio)
      (fun (hm : tensor3 spec_float) (_ : unit) => hm)
      (FromEncoder.EnsembleHubert_init (fun _ : bool => tt)
         (fun m : bool => if m then second_hidden else first_hidden)
         [false; true] None) tt
    = Some y /\
    has_shape 1 (sum_list [1%nat; 2%nat]) 2 y /\
    forall b, (b < 1)%nat ->
      y !! b
      = Some (concat
          ((fun m : bool =>
              default []
                (transpose12 (if m then second_hidden else first_hidden)
                 !! b))
           <$> [false; true])).
Proof.
  assert (Forall2
            (fun (m : bool) (C : nat) =>
               has_shape 1 2 C (if m then second_hidden else first_hidden))
            [false; true] [1%nat; 2%nat]) as Hshape.
  { constructor; [exact first_hidden_shape|].
    constructor; [exact second_hidden_shape|constructor]. }
  split; [exact Hshape|]. split; [lia|]. split; [discriminate|].
  apply (ensemble_forward_concatenates
           (fun (_ : unit) (audio : unit) => audio)
           (fun (hm : tensor3 spec_float) (_ : unit) => hm)
           (fun _ : bool => tt)
           (fun m : bool => if m then second_hidden else first_hidden)
           tt 1 2 [false; true] [1%nat; 2%nat] Hshape);
    [lia|discriminate].
Defined.

(** Feature tensors of time lengths 2 and 3. *)
Lemma ensemble_rejects_mismatch_witness :
  has_shape 1 1 2 first_features /\ has_shape 1 1 3 long_features /\
  (0 < 1)%nat /\ (1%nat <> 1%nat \/ 2%nat <> 3%nat) /\
  EnsembleHubert.forward [first_features; long_features] None = None /\
  EnsembleHubert.forward [first_features; long_features] (Some 1) = None.
Proof.
  assert (has_shape 1 1 2 first_features) as H1 by (repeat constructor).
  assert (has_shape 1 1 3 long_features) as H2 by (repeat constructor).
  assert (1%nat <> 1%nat \/ 2%nat <> 3%nat) as Hne by (right; discriminate).
  split; [exact H1|]. split; [exact H2|]. split; [lia|]. split; [exact Hne|].
  destruct (ensemble_rejects_mismatch 1 1 2 1 1 3 first_features
              long_features H1 H2) as [Hnone _]; [lia..|].
  split; apply Hnone; exact Hne.
Defined.

(** The two models above with downsample factor 2. *)
Lemma ensemble_is_concat_of_single_witness :
  has_shape 1 2 1 first_hidden /\ has_shape 1 2 2 second_hidden /\
  (0 < 1)%nat /\ (0 < 2)%nat /\
  FromEncoder.EnsembleHubert_forward
    (fun (_ : unit) (audio : unit) => audio)
    (fun (hm : tensor3 spec_float) (_ : unit) => hm)
    (FromEncoder.EnsembleHubert_init (fun _ : bool => tt)
       (fun m : bool => if m then second_hidden else first_hidden)
       [false; true] (Some 2)) tt
  = y1 ← FromEncoder.ChineseHubert_forward first_hidden (Some 2);
    y2 ← FromEncoder.ChineseHubert_forward second_hidden (Some 2);
    cat_dim1 [y1; y2].
Proof.
  split; [exact first_hidden_shape|]. split; [exact second_hidden_shape|].
  split; [lia|]. split; [lia|].
  apply (ensemble_is_concat_of_single
           (fun (_ : unit) (audio : unit) => audio)
           (fun (hm : tensor3 spec_float) (_ : unit) => hm)
           (fun _ : bool => tt)
           (fun m : bool => if m then second_hidden else first_hidden)
           tt 1 2 1 2 false true (Some 2)
           first_hidden_shape second_hidden_shape); lia.
Defined.
